(** * edu-people: the DynamoDB person directory of [lib/model.js]

    A shallow embedding of the seven operations exported by
    [lib/model.js] ([findPerson], [scanPeople], [upsertPerson],
    [createPerson], [updatePerson], [setPermission], [removePermission])
    together with a model of the part of the DynamoDB DocumentClient they
    call ([get], [put], [update], [scan]).

    Layout:
    - [Js]       JavaScript values, objects, [toLowerCase], truthiness,
                 the regular expression [/^all$/i];
    - [Ddb]      attribute values, marshalling of JavaScript values, the
                 expression language of [UpdateExpression] and
                 [FilterExpression], and the four table operations;
    - [Model]    the functions of [lib/model.js], written in a state and
                 error monad over the table and a log of the requests sent;
    - the vocabulary of the properties, then the properties: facts about
      the table service, runs of each operation, and the statements C1 to
      C10 about the directory store. *)

From Stdlib Require Import ZArith Ascii String DecimalString.
From stdpp Require Import gmap strings list fin_maps.

Set Warnings "-register-all".
Local Open Scope string_scope.
Local Open Scope list_scope.

(* ===================================================================== *)
(** ** JavaScript values *)
(* ===================================================================== *)

Module Js.

(** The values the model handles. Numbers are integers; an object is the
    list of its own enumerable properties in insertion order (a name occurs
    once; [obj_get] and marshalling read the first occurrence). *)
Inductive Val : Type :=
  | VUndef
  | VNull
  | VBool (b : bool)
  | VNum (n : Z)
  | VStr (s : string)
  | VArr (l : list Val)
  | VObj (o : list (string * Val)).

Abbreviation Obj := (list (string * Val)).

(** [o[key]]: [undefined] for a property the object does not have. *)
Fixpoint obj_get (key : string) (o : Obj) : Val :=
  match o with
  | [] => VUndef
  | (k, v) :: o' => if String.eqb k key then v else obj_get key o'
  end.

(** [Object.getOwnPropertyNames(o)]. *)
Definition getOwnPropertyNames (o : Obj) : list string := map fst o.

(** [ToBoolean]: what [v ? a : b] and [!v] test. *)
Definition truthy (v : Val) : bool :=
  match v with
  | VUndef | VNull => false
  | VBool b => b
  | VNum n => negb (n =? 0)%Z
  | VStr s => negb (String.eqb s "")
  | VArr _ | VObj _ => true
  end.

Definition is_upper (c : ascii) : bool :=
  let n := nat_of_ascii c in (65 <=? n)%nat && (n <=? 90)%nat.

Definition lower_ascii (c : ascii) : ascii :=
  if is_upper c then ascii_of_nat (nat_of_ascii c + 32) else c.

(** [String.prototype.toLowerCase] on strings of ASCII characters, where
    it turns the letters A to Z into a to z and nothing else. On other
    strings JavaScript also folds letters outside ASCII, which this
    function leaves as they are: the statements that depend on the
    lower-cased form of a string take the string in [is_ascii]. *)
Fixpoint toLowerCase (s : string) : string :=
  match s with
  | EmptyString => EmptyString
  | String c s' => String (lower_ascii c) (toLowerCase s')
  end.

Fixpoint is_ascii (s : string) : bool :=
  match s with
  | EmptyString => true
  | String c s' => (nat_of_ascii c <? 128)%nat && is_ascii s'
  end.

(** [Array.prototype.join]. *)
Fixpoint join (sep : string) (l : list string) : string :=
  match l with
  | [] => ""
  | [x] => x
  | x :: l' => x +:+ sep +:+ join sep l'
  end.

(** [Array.prototype.includes] on an array of strings. *)
Definition includes (l : list string) (x : string) : bool :=
  existsb (String.eqb x) l.

(** [Number.prototype.toString] on an integer: its decimal digits, below
    10^21 in magnitude (from there on JavaScript prints an exponent, which
    is not modelled). *)
Definition number_toString (n : Z) : option string :=
  if (Z.abs n <? 10 ^ 21)%Z then Some (NilZero.string_of_int (Z.to_int n))
  else None.

(** [v.toString()], for the values that have the method. An array joins
    the strings of its elements with commas, [null] and [undefined]
    counting as empty. *)
Fixpoint toString (v : Val) : option string :=
  match v with
  | VUndef | VNull => None
  | VBool b => Some (if b then "true" else "false")
  | VNum n => number_toString n
  | VStr s => Some s
  | VArr l =>
      match
        (fix elems (l : list Val) : option (list string) :=
           match l with
           | [] => Some []
           | x :: l' =>
               match match x with
                     | VUndef | VNull => Some ""
                     | _ => toString x
                     end, elems l' with
               | Some s, Some r => Some (s :: r)
               | _, _ => None
               end
           end) l
      with
      | Some parts => Some (join "," parts)
      | None => None
      end
  | VObj _ => Some "[object Object]"
  end.

(** One character of a case-insensitive pattern: without the [u] flag the
    engine compares upper-cased code units, and a code unit above 127 never
    folds onto an ASCII one. *)
Definition ci_char (pat c : ascii) : bool :=
  Ascii.eqb (lower_ascii c) (lower_ascii pat).

(** [/^all$/i.test(s)]: [$] without the [m] flag matches only at the end
    of the input. *)
Definition test_all (s : string) : bool :=
  match s with
  | String a (String b (String c EmptyString)) =>
      ci_char "a" a && ci_char "l" b && ci_char "l" c
  | _ => false
  end.

End Js.
Export Js.

(* ===================================================================== *)
(** ** The table service *)
(* ===================================================================== *)

(** The errors a caller of the module can observe: the two kinds raised by
    the JavaScript code itself and the rejection of a request by the
    service (or by the client library before sending it). *)
Inductive Error : Type :=
  | TypeError
  | JsError (message : string)
  | ValidationException.

Module Ddb.

(** Attribute values as stored in the table. *)
Inductive Attr : Type :=
  | ANull
  | ABool (b : bool)
  | AN (n : Z)
  | AS (s : string)
  | AL (l : list Attr)
  | AM (m : gmap string Attr).

Abbreviation Item := (gmap string Attr).

(** The table [edu-people]: one item per value of its hash key
    [ucinetid] (type S in [serverless.yml]). *)
Abbreviation Table := (gmap string Item).

Definition key_name : string := "ucinetid".

(** The numbers the service stores: at most 38 significant digits and a
    magnitude below 10^126. *)
Fixpoint strip_zeros (fuel : nat) (n : Z) : Z :=
  match fuel with
  | O => n
  | S fuel' => if (n mod 10 =? 0)%Z then strip_zeros fuel' (n / 10) else n
  end.

Definition number_ok (n : Z) : bool :=
  (Z.abs n <? 10 ^ 126)%Z && (strip_zeros 126 (Z.abs n) <? 10 ^ 38)%Z.

(** *** Marshalling (DocumentClient's input conversion)

    [undefined] converts to nothing: a property holding it is left out of
    the map that is sent, and so is an element of an array. A number
    outside the range of the service makes the request one it rejects.
    An empty string is a value like any other. *)
Inductive Wire : Type :=
  | WAbsent
  | WBad
  | WOk (a : Attr).

Fixpoint marshal (v : Val) : Wire :=
  match v with
  | VUndef => WAbsent
  | VNull => WOk ANull
  | VBool b => WOk (ABool b)
  | VNum n => if number_ok n then WOk (AN n) else WBad
  | VStr s => WOk (AS s)
  | VArr l =>
      match
        (fix elems (l : list Val) : option (list Attr) :=
           match l with
           | [] => Some []
           | x :: l' =>
               match elems l' with
               | None => None
               | Some r =>
                   match marshal x with
                   | WAbsent => Some r
                   | WBad => None
                   | WOk a => Some (a :: r)
                   end
               end
           end) l
      with
      | Some r => WOk (AL r)
      | None => WBad
      end
  | VObj o =>
      match
        (fix props (o : Obj) : option Item :=
           match o with
           | [] => Some ∅
           | (k, x) :: o' =>
               match props o' with
               | None => None
               | Some m =>
                   match marshal x with
                   | WAbsent => Some m
                   | WBad => None
                   | WOk a => Some (<[k := a]> m)
                   end
               end
           end) o
      with
      | Some m => WOk (AM m)
      | None => WBad
      end
  end.

(** A JavaScript object sent as a map of attributes ([Item], [Key],
    [ExpressionAttributeValues]). *)
Definition marshal_obj (o : Obj) : option Item :=
  match marshal (VObj o) with
  | WOk (AM m) => Some m
  | _ => None
  end.

(** A [Key] or [ExclusiveStartKey]: exactly the hash key, a string. *)
Definition key_of (o : Obj) : option string :=
  match marshal_obj o with
  | Some m =>
      match m !! key_name with
      | Some (AS k) => if decide (size m = 1) then Some k else None
      | _ => None
      end
  | None => None
  end.

(** *** Expressions: tokens *)

Inductive token : Type :=
  | TIdent (w : string)
  | TName (w : string)       (* #name, kept with its # *)
  | TValue (w : string)      (* :name, kept with its : *)
  | TDot
  | TComma
  | TEq
  | TLParen
  | TRParen.

Definition is_alpha (c : ascii) : bool :=
  let n := nat_of_ascii c in
  ((65 <=? n)%nat && (n <=? 90)%nat) || ((97 <=? n)%nat && (n <=? 122)%nat).

Definition is_digit (c : ascii) : bool :=
  let n := nat_of_ascii c in (48 <=? n)%nat && (n <=? 57)%nat.

Definition is_word (c : ascii) : bool :=
  is_alpha c || is_digit c || Ascii.eqb c "_".

Definition is_space (c : ascii) : bool :=
  let n := nat_of_ascii c in
  (n =? 32)%nat || (n =? 9)%nat || (n =? 10)%nat || (n =? 13)%nat.

Definition starts_word (s : string) : bool :=
  match s with
  | String c _ => is_word c
  | EmptyString => false
  end.

(** Prefix the character [c] to the word that starts the remaining input. *)
Definition glue (mk : string -> token) (c : ascii) (rest : string)
    (ts : list token) : option (list token) :=
  if starts_word rest then
    match ts with
    | TIdent w :: ts' => Some (mk (String c w) :: ts')
    | _ => None
    end
  else None.

Fixpoint lex (s : string) : option (list token) :=
  match s with
  | EmptyString => Some []
  | String c rest =>
      match lex rest with
      | None => None
      | Some ts =>
          if is_space c then Some ts
          else if is_word c then
            (if starts_word rest then glue TIdent c rest ts
             else Some (TIdent (String c "") :: ts))
          else if Ascii.eqb c "#" then glue TName c rest ts
          else if Ascii.eqb c ":" then glue TValue c rest ts
          else if Ascii.eqb c "." then Some (TDot :: ts)
          else if Ascii.eqb c "," then Some (TComma :: ts)
          else if Ascii.eqb c "=" then Some (TEq :: ts)
          else if Ascii.eqb c "(" then Some (TLParen :: ts)
          else if Ascii.eqb c ")" then Some (TRParen :: ts)
          else None
      end
  end.

(** *** Expressions: document paths and update clauses

    The model covers the fragment of the expression language the module
    can produce: [SET path = :value, ...] and [REMOVE path, ...] with
    paths of attribute names separated by dots, and the conditions
    [attribute_exists(path)] and [attribute_not_exists(path)]. Anything
    else is answered with a [ValidationException]. Not modelled: the
    limits on the size of an item and on the depth of its nesting. *)

Inductive pelem : Type :=
  | PRaw (w : string)        (* an attribute name written in the expression *)
  | PRef (w : string).       (* a placeholder of ExpressionAttributeNames *)

Definition elem_of_token (t : token) : option pelem :=
  match t with
  | TIdent w => Some (PRaw w)
  | TName w => Some (PRef w)
  | _ => None
  end.

Fixpoint parse_path_tail (ts : list token) : list pelem * list token :=
  match ts with
  | TDot :: t :: ts' =>
      match elem_of_token t with
      | Some e => let '(p, r) := parse_path_tail ts' in (e :: p, r)
      | None => ([], ts)
      end
  | _ => ([], ts)
  end.

Definition parse_path (ts : list token) : option (list pelem * list token) :=
  match ts with
  | t :: ts' =>
      match elem_of_token t with
      | Some e => let '(p, r) := parse_path_tail ts' in Some (e :: p, r)
      | None => None
      end
  | [] => None
  end.

(** Syntactic actions, placeholders not yet resolved. *)
Inductive raw_action : Type :=
  | RawSet (p : list pelem) (v : string)
  | RawRemove (p : list pelem).

Inductive clause_kind : Type := KSet | KRemove | KAdd | KDelete.

Global Instance clause_kind_eq_dec : EqDecision clause_kind.
Proof. solve_decision. Defined.

Definition keyword_of (t : token) : option clause_kind :=
  match t with
  | TIdent w =>
      let l := toLowerCase w in
      if String.eqb l "set" then Some KSet
      else if String.eqb l "remove" then Some KRemove
      else if String.eqb l "add" then Some KAdd
      else if String.eqb l "delete" then Some KDelete
      else None
  | _ => None
  end.

(** The tokens before the first keyword, and each keyword with the tokens
    up to the next one. *)
Fixpoint split_clauses (ts : list token)
    : list token * list (clause_kind * list token) :=
  match ts with
  | [] => ([], [])
  | t :: ts' =>
      let '(pre, cls) := split_clauses ts' in
      match keyword_of t with
      | Some kw => ([], (kw, pre) :: cls)
      | None => (t :: pre, cls)
      end
  end.

Fixpoint split_commas (ts : list token) : list (list token) :=
  match ts with
  | [] => [[]]
  | TComma :: ts' => [] :: split_commas ts'
  | t :: ts' =>
      match split_commas ts' with
      | seg :: segs => (t :: seg) :: segs
      | [] => [[t]]
      end
  end.

Definition parse_action (kw : clause_kind) (seg : list token)
    : option raw_action :=
  match kw, parse_path seg with
  | KSet, Some (p, [TEq; TValue v]) => Some (RawSet p v)
  | KRemove, Some (p, []) => Some (RawRemove p)
  | _, _ => None
  end.

Fixpoint all_some {A} (l : list (option A)) : option (list A) :=
  match l with
  | [] => Some []
  | Some x :: l' => match all_some l' with Some r => Some (x :: r) | None => None end
  | None :: _ => None
  end.

Definition parse_clause (c : clause_kind * list token)
    : option (list raw_action) :=
  all_some (map (parse_action (fst c)) (split_commas (snd c))).

(** An update expression: at least one clause, each keyword at most once,
    nothing before the first keyword, every clause with at least one
    action. *)
Definition parse_update (e : string) : option (list raw_action) :=
  match lex e with
  | None => None
  | Some ts =>
      match split_clauses ts with
      | ([], c :: cls) =>
          if decide (NoDup (map fst (c :: cls))) then
            match all_some (map parse_clause (c :: cls)) with
            | Some ass => Some (concat ass)
            | None => None
            end
          else None
      | _ => None
      end
  end.

Inductive condition : Type :=
  | CExists (p : list pelem)
  | CNotExists (p : list pelem).

Definition parse_condition (e : string) : option condition :=
  match lex e with
  | Some (TIdent f :: TLParen :: ts) =>
      match parse_path ts with
      | Some (p, [TRParen]) =>
          if String.eqb f "attribute_exists" then Some (CExists p)
          else if String.eqb f "attribute_not_exists" then Some (CNotExists p)
          else None
      | _ => None
      end
  | _ => None
  end.

(** *** Expressions: placeholders and evaluation *)

Definition path_refs (p : list pelem) : list string :=
  omap (fun e => match e with PRef w => Some w | PRaw _ => None end) p.

Definition raw_path (a : raw_action) : list pelem :=
  match a with RawSet p _ => p | RawRemove p => p end.

Definition raw_values (a : raw_action) : list string :=
  match a with RawSet _ v => [v] | RawRemove _ => [] end.

(** [ExpressionAttributeNames], when given, is not empty and holds no
    placeholder the expressions leave unused. *)
Definition names_ok (names : option Obj) (used : list string) : bool :=
  match names with
  | None => true
  | Some o =>
      negb (bool_decide (o = [])) && forallb (includes used) (getOwnPropertyNames o)
  end.

(** The same for [ExpressionAttributeValues], on the map that is sent. *)
Definition values_ok (vals : Item) (given : bool) (used : list string) : bool :=
  if given then
    negb (bool_decide (vals = ∅))
    && forallb (includes used) (map fst (map_to_list vals))
  else true.

(** The words the service reserves (its developer guide lists them); an
    attribute of such a name is reached through a placeholder only. The
    comparison ignores case. *)
Definition reserved_words : list string :=
  ["abort"; "absolute"; "action"; "add"; "after"; "agent"; "aggregate";
   "all"; "allocate"; "alter"; "analyze"; "and"; "any"; "archive"; "are";
   "array"; "as"; "asc"; "ascii"; "asensitive"; "assertion"; "asymmetric";
   "at"; "atomic"; "attach"; "attribute"; "auth"; "authorization";
   "authorize"; "auto"; "avg"; "back"; "backup"; "base"; "batch"; "before";
   "begin"; "between"; "bigint"; "binary"; "bit"; "blob"; "block";
   "boolean"; "both"; "breadth"; "bucket"; "bulk"; "by"; "byte"; "call";
   "called"; "calling"; "capacity"; "cascade"; "cascaded"; "case"; "cast";
   "catalog"; "char"; "character"; "check"; "class"; "clob"; "close";
   "cluster"; "clustered"; "clustering"; "clusters"; "coalesce"; "collate";
   "collation"; "collection"; "column"; "columns"; "combine"; "comment";
   "commit"; "compact"; "compile"; "compress"; "condition"; "conflict";
   "connect"; "connection"; "consistency"; "consistent"; "constraint";
   "constraints"; "constructor"; "consumed"; "continue"; "convert"; "copy";
   "corresponding"; "count"; "counter"; "create"; "cross"; "cube";
   "current"; "cursor"; "cycle"; "data"; "database"; "date"; "datetime";
   "day"; "deallocate"; "dec"; "decimal"; "declare"; "default";
   "deferrable"; "deferred"; "define"; "defined"; "definition"; "delete";
   "delimited"; "depth"; "deref"; "desc"; "describe"; "descriptor";
   "detach"; "deterministic"; "diagnostics"; "directories"; "disable";
   "disconnect"; "distinct"; "distribute"; "do"; "domain"; "double";
   "drop"; "dump"; "duration"; "dynamic"; "each"; "element"; "else";
   "elseif"; "empty"; "enable"; "end"; "equal"; "equals"; "error";
   "escape"; "escaped"; "eval"; "evaluate"; "exceeded"; "except";
   "exception"; "exceptions"; "exclusive"; "exec"; "execute"; "exists";
   "exit"; "explain"; "explode"; "export"; "expression"; "extended";
   "external"; "extract"; "fail"; "false"; "family"; "fetch"; "fields";
   "file"; "filter"; "filtering"; "final"; "finish"; "first"; "fixed";
   "flattern"; "float"; "for"; "force"; "foreign"; "format"; "forward";
   "found"; "free"; "from"; "full"; "function"; "functions"; "general";
   "generate"; "get"; "glob"; "global"; "go"; "goto"; "grant"; "greater";
   "group"; "grouping"; "handler"; "hash"; "have"; "having"; "heap";
   "hidden"; "hold"; "hour"; "identified"; "identity"; "if"; "ignore";
   "immediate"; "import"; "in"; "including"; "inclusive"; "increment";
   "incremental"; "index"; "indexed"; "indexes"; "indicator"; "infinite";
   "initially"; "inline"; "inner"; "innter"; "inout"; "input";
   "insensitive"; "insert"; "instead"; "int"; "integer"; "intersect";
   "interval"; "into"; "invalidate"; "is"; "isolation"; "item"; "items";
   "iterate"; "join"; "key"; "keys"; "lag"; "language"; "large"; "last";
   "later"; "lateral"; "lead"; "leading"; "leave"; "left"; "length";
   "less"; "level"; "like"; "limit"; "limited"; "lines"; "list"; "load";
   "local"; "localtime"; "localtimestamp"; "location"; "locator"; "lock";
   "locks"; "log"; "loged"; "long"; "loop"; "lower"; "map"; "match";
   "materialized"; "max"; "maxlen"; "member"; "merge"; "method"; "metrics";
   "min"; "minus"; "minute"; "missing"; "mod"; "mode"; "modifies";
   "modify"; "module"; "month"; "multi"; "multiset"; "name"; "names";
   "national"; "natural"; "nchar"; "nclob"; "new"; "next"; "no"; "none";
   "not"; "null"; "nullif"; "number"; "numeric"; "object"; "of"; "offline";
   "offset"; "old"; "on"; "online"; "only"; "opaque"; "open"; "operator";
   "option"; "or"; "order"; "ordinality"; "other"; "others"; "out";
   "outer"; "output"; "over"; "overlaps"; "override"; "owner"; "pad";
   "parallel"; "parameter"; "parameters"; "partial"; "partition";
   "partitioned"; "partitions"; "path"; "percent"; "percentile";
   "permission"; "permissions"; "pipe"; "pipelined"; "plan"; "pool";
   "position"; "precision"; "prepare"; "preserve"; "primary"; "prior";
   "private"; "privileges"; "procedure"; "processed"; "project";
   "projection"; "property"; "provisioning"; "public"; "put"; "query";
   "quit"; "quorum"; "raise"; "random"; "range"; "rank"; "raw"; "read";
   "reads"; "real"; "rebuild"; "record"; "recursive"; "reduce"; "ref";
   "reference"; "references"; "referencing"; "regexp"; "region"; "reindex";
   "relative"; "release"; "remainder"; "rename"; "repeat"; "replace";
   "request"; "reset"; "resignal"; "resource"; "response"; "restore";
   "restrict"; "result"; "return"; "returning"; "returns"; "reverse";
   "revoke"; "right"; "role"; "roles"; "rollback"; "rollup"; "routine";
   "row"; "rows"; "rule"; "rules"; "sample"; "satisfies"; "save";
   "savepoint"; "scan"; "schema"; "scope"; "scroll"; "search"; "second";
   "section"; "segment"; "segments"; "select"; "self"; "semi"; "sensitive";
   "separate"; "sequence"; "serializable"; "session"; "set"; "sets";
   "shard"; "share"; "shared"; "short"; "show"; "signal"; "similar";
   "size"; "skewed"; "smallint"; "snapshot"; "some"; "source"; "space";
   "spaces"; "sparse"; "specific"; "specifictype"; "split"; "sql";
   "sqlcode"; "sqlerror"; "sqlexception"; "sqlstate"; "sqlwarning";
   "start"; "state"; "static"; "statistics"; "store"; "stored";
   "stream"; "string"; "struct"; "style"; "sub"; "submultiset";
   "subpartition"; "substring"; "subtype"; "sum"; "super"; "symmetric";
   "synonym"; "system"; "table"; "tablesample"; "temp"; "temporary";
   "terminated"; "text"; "than"; "then"; "throughput"; "time"; "timestamp";
   "timezone"; "tinyint"; "to"; "token"; "total"; "touch"; "trailing";
   "transaction"; "transform"; "translate"; "translation"; "treat";
   "trigger"; "trim"; "true"; "truncate"; "ttl"; "tuple"; "type"; "under";
   "undo"; "union"; "unique"; "unit"; "unknown"; "unlogged"; "unnest";
   "unprocessed"; "unsigned"; "until"; "update"; "upper"; "url"; "usage";
   "use"; "user"; "users"; "using"; "uuid"; "vacuum"; "value"; "valued";
   "values"; "varchar"; "variable"; "variance"; "varint"; "varying";
   "view"; "views"; "virtual"; "void"; "wait"; "when"; "whenever"; "where";
   "while"; "window"; "with"; "within"; "without"; "work"; "wrapped";
   "write"; "year"; "zone"].

Definition reserved_word (w : string) : bool :=
  includes reserved_words (toLowerCase w).

(** What a placeholder of [ExpressionAttributeNames] stands for. The
    client library passes a string on as it is and any other truthy value
    as its [toString()]; a property holding [undefined] is not sent, and
    [null], [false] and [0] are not strings. *)
Definition name_of (v : Val) : option string :=
  match v with
  | VStr s => Some s
  | _ => if truthy v then toString v else None
  end.

(** An attribute name written out in an expression starts with a letter
    and is not a reserved word; behind a placeholder any name goes. *)
Definition resolve_elem (names : option Obj) (e : pelem) : option string :=
  match e with
  | PRaw w =>
      match w with
      | String c _ =>
          if is_alpha c && negb (reserved_word w) then Some w else None
      | EmptyString => None
      end
  | PRef w => name_of (obj_get w (default [] names))
  end.

Definition resolve_path (names : option Obj) (p : list pelem)
    : option (list string) :=
  all_some (map (resolve_elem names) p).

Inductive action : Type :=
  | Assign (p : list string) (v : Attr)
  | Delete (p : list string).

Definition action_path (a : action) : list string :=
  match a with Assign p _ => p | Delete p => p end.

Definition resolve_action (names : option Obj) (vals : Item) (a : raw_action)
    : option action :=
  match a with
  | RawSet p v =>
      match resolve_path names p, vals !! v with
      | Some p', Some x => Some (Assign p' x)
      | _, _ => None
      end
  | RawRemove p =>
      match resolve_path names p with
      | Some p' => Some (Delete p')
      | None => None
      end
  end.

Fixpoint is_prefix (p q : list string) : bool :=
  match p, q with
  | [], _ => true
  | _ :: _, [] => false
  | a :: p', b :: q' => String.eqb a b && is_prefix p' q'
  end.

Definition overlap (p q : list string) : bool := is_prefix p q || is_prefix q p.

Fixpoint no_overlap (ps : list (list string)) : bool :=
  match ps with
  | [] => true
  | p :: ps' => forallb (fun q => negb (overlap p q)) ps' && no_overlap ps'
  end.

Definition touches_key (p : list string) : bool :=
  match p with
  | a :: _ => String.eqb a key_name
  | [] => true
  end.

(** Writing below a path needs every map on the way to exist. *)
Fixpoint set_path (p : list string) (v : Attr) (m : Item) : option Item :=
  match p with
  | [] => None
  | [k] => Some (<[k := v]> m)
  | k :: p' =>
      match m !! k with
      | Some (AM m') =>
          match set_path p' v m' with
          | Some m'' => Some (<[k := AM m'']> m)
          | None => None
          end
      | _ => None
      end
  end.

(** Removing an attribute that is not there changes nothing; the maps on
    the way to it must exist. *)
Fixpoint remove_path (p : list string) (m : Item) : option Item :=
  match p with
  | [] => None
  | [k] => Some (delete k m)
  | k :: p' =>
      match m !! k with
      | Some (AM m') =>
          match remove_path p' m' with
          | Some m'' => Some (<[k := AM m'']> m)
          | None => None
          end
      | _ => None
      end
  end.

Definition apply_action (a : action) (m : Item) : option Item :=
  match a with
  | Assign p v => set_path p v m
  | Delete p => remove_path p m
  end.

Fixpoint apply_actions (acts : list action) (m : Item) : option Item :=
  match acts with
  | [] => Some m
  | a :: acts' =>
      match apply_action a m with
      | Some m' => apply_actions acts' m'
      | None => None
      end
  end.

Fixpoint lookup_path (p : list string) (m : Item) : option Attr :=
  match p with
  | [] => None
  | [k] => m !! k
  | k :: p' =>
      match m !! k with
      | Some (AM m') => lookup_path p' m'
      | _ => None
      end
  end.

(** *** Requests *)

Record GetInput := {
  get_TableName : string;
  get_Key : Obj }.

Record PutInput := {
  put_TableName : string;
  put_Item : Obj }.

Record UpdateInput := {
  upd_TableName : string;
  upd_Key : Obj;
  upd_UpdateExpression : string;
  upd_ExpressionAttributeNames : option Obj;
  upd_ExpressionAttributeValues : option Obj;
  upd_ReturnValues : string }.

Record ScanInput := {
  scan_TableName : string;
  scan_FilterExpression : option string;
  scan_ExpressionAttributeNames : option Obj;
  scan_ExclusiveStartKey : option Obj;
  scan_Limit : option nat }.

Record ScanOutput := {
  Items : list Item;
  LastEvaluatedKey : option Obj }.

(** *** The four operations; [None] is a rejected request *)

(** The service takes a key value of 1 to 2048 bytes. *)
Definition key_string (k : string) : bool :=
  negb (String.eqb k "") && (String.length k <=? 2048)%nat.

(** It refuses a request with any other key value, so no table it keeps
    holds an item under one. On such a table [refused] is the plain test
    of the key; it lets a request through that names an item the table
    does hold. *)
Definition refused (k : string) (t : Table) : bool :=
  negb (key_string k) && bool_decide (t !! k = None).

(** [get]: [data.Item], undefined when no item has the key. *)
Definition get (req : GetInput) (t : Table) : option (option Item) :=
  match key_of (get_Key req) with
  | Some k => if refused k t then None else Some (t !! k)
  | None => None
  end.

(** [put]: the item replaces whatever the table holds under its key. *)
Definition put (req : PutInput) (t : Table) : option Table :=
  match marshal_obj (put_Item req) with
  | Some m =>
      match m !! key_name with
      | Some (AS k) => if key_string k then Some (<[k := m]> t) else None
      | _ => None
      end
  | None => None
  end.

(** [update]: the actions apply to the item under the key, or to an item
    holding only the key when there is none (an update creates the item).
    Returns [data.Attributes] for [ALL_NEW]. *)
Definition update (req : UpdateInput) (t : Table)
    : option (option Item * Table) :=
  match key_of (upd_Key req), parse_update (upd_UpdateExpression req),
        marshal_obj (default [] (upd_ExpressionAttributeValues req)) with
  | Some k, Some raws, Some vals =>
      let names := upd_ExpressionAttributeNames req in
      if negb (refused k t)
         && names_ok names (concat (map (fun a => path_refs (raw_path a)) raws))
         && values_ok vals
              (bool_decide (is_Some (upd_ExpressionAttributeValues req)))
              (concat (map raw_values raws))
      then
        match all_some (map (resolve_action names vals) raws) with
        | Some acts =>
            if forallb (fun a => negb (touches_key (action_path a))) acts
               && no_overlap (map action_path acts)
            then
              match apply_actions acts (default {[key_name := AS k]} (t !! k)) with
              | Some item =>
                  Some (if String.eqb (upd_ReturnValues req) "ALL_NEW"
                        then Some item else None,
                        <[k := item]> t)
              | None => None
              end
            else None
        | None => None
        end
      else None
  | _, _, _ => None
  end.

(** The items that follow key [k] in the order the table is read. *)
Fixpoint after (k : string) (l : list (string * Item)) : list (string * Item) :=
  match l with
  | [] => []
  | (k', _) :: l' => if String.eqb k' k then l' else after k l'
  end.

Definition eval_condition (c : option (bool * list string)) (m : Item) : bool :=
  match c with
  | None => true
  | Some (positive, p) =>
      if positive then bool_decide (is_Some (lookup_path p m))
      else negb (bool_decide (is_Some (lookup_path p m)))
  end.

Definition resolve_condition (names : option Obj) (e : option string)
    : option (option (bool * list string)) :=
  match e with
  | None => if bool_decide (names = None) then Some None else None
  | Some e =>
      match parse_condition e with
      | Some (CExists p) =>
          if names_ok names (path_refs p) then
            match resolve_path names p with
            | Some p' => Some (Some (true, p'))
            | None => None
            end
          else None
      | Some (CNotExists p) =>
          if names_ok names (path_refs p) then
            match resolve_path names p with
            | Some p' => Some (Some (false, p'))
            | None => None
            end
          else None
      | None => None
      end
  end.

Definition key_obj (k : string) : Obj := [(key_name, VStr k)].

Section Scan.

(** How many items beyond the first the service reads for one request that
    starts at the given cursor: a response is cut at 1 MB of data read,
    wherever that falls. *)
Variable page_cap : option string -> nat.

(** [scan]: one page. The service reads on from the cursor, stops at the
    page capacity or at [Limit], and only then applies the filter to what
    it has read. [LastEvaluatedKey] is the key of the last item read when
    items remain, and also when the page stopped at [Limit] with nothing
    left behind it. *)
Definition scan (req : ScanInput) (t : Table) : option ScanOutput :=
  match resolve_condition (scan_ExpressionAttributeNames req)
          (scan_FilterExpression req),
        (match scan_ExclusiveStartKey req with
         | None => Some None
         | Some o => match key_of o with Some k => Some (Some k) | None => None end
         end) with
  | Some cond, Some start =>
      if bool_decide (scan_Limit req = Some 0) then None
      else
        let rest := match start with
                    | None => map_to_list t
                    | Some k => after k (map_to_list t)
                    end in
        let n := match scan_Limit req with
                 | None => S (page_cap start)
                 | Some lim => Nat.min lim (S (page_cap start))
                 end in
        let page := take n rest in
        Some {| Items := List.filter (eval_condition cond) (map snd page);
                LastEvaluatedKey :=
                  if (length rest <=? n)%nat
                     && negb (match scan_Limit req with
                              | Some lim => (lim <=? length rest)%nat
                              | None => false
                              end)
                  then None
                  else match last page with
                       | Some (k, _) => Some (key_obj k)
                       | None => None
                       end |}
  | _, _ => None
  end.

End Scan.

End Ddb.
Import Ddb.

(* ===================================================================== *)
(** ** The module [lib/model.js] *)
(* ===================================================================== *)

Module Model.

(** What a DocumentClient was asked to do. *)
Inductive Request : Type :=
  | RGet (params : GetInput)
  | RPut (params : PutInput)
  | RUpdate (params : UpdateInput)
  | RScan (params : ScanInput).

(** The state the module works on: the table, and the requests sent so
    far, oldest first. Two assumptions on the service are built in. Every
    client [getClient] builds reaches the same table: the client options
    tune the connection and are taken not to redirect it ([createPerson]
    builds its [put] client with [{}] where the other calls pass the
    module's [options]). And the service answers: a request is rejected
    for what it asks, never for a failure of the network or of the
    service itself. *)
Record World := {
  tbl : Table;
  log : list Request }.

(** The state a promise is observed in. An exception thrown before the
    promise is built ([toLowerCase] of a value that is no string) is
    counted as a rejection. [Pending] is a chain of callbacks the model was
    not given the steps to finish. *)
Inductive Outcome (A : Type) : Type :=
  | Resolved (a : A)
  | Rejected (e : Error)
  | Pending.
Arguments Resolved {A} a.
Arguments Rejected {A} e.
Arguments Pending {A}.

Definition M (A : Type) : Type := World -> Outcome A * World.

Definition ret {A} (a : A) : M A := fun w => (Resolved a, w).

Definition throw {A} (e : Error) : M A := fun w => (Rejected e, w).

(** [p.then(k)] *)
Definition bind {A B} (p : M A) (k : A -> M B) : M B := fun w =>
  match p w with
  | (Resolved a, w') => k a w'
  | (Rejected e, w') => (Rejected e, w')
  | (Pending, w') => (Pending, w')
  end.

Notation "x <- p ;; k" := (bind p (fun x => k))
  (at level 100, p at next level, right associativity).

Definition sent (r : Request) (w : World) : World :=
  {| tbl := tbl w; log := log w ++ [r] |}.

(** [s.toLowerCase()] for a property value: a [TypeError] unless the value
    is a string. *)
Definition lower_of (v : Val) : M string :=
  match v with
  | VStr s => ret (toLowerCase s)
  | _ => throw TypeError
  end.

Section Store.

(** The arguments of [module.exports = (table, options) => ...]. *)
Variable table : string.
Variable page_cap : option string -> nat.

(** *** The client calls, wrapped in promises as the module does *)

Definition client_get (params : GetInput) : M (option Item) := fun w =>
  match get params (tbl w) with
  | Some item => (Resolved item, sent (RGet params) w)
  | None => (Rejected ValidationException, sent (RGet params) w)
  end.

Definition client_put (params : PutInput) : M unit := fun w =>
  match put params (tbl w) with
  | Some t => (Resolved tt, {| tbl := t; log := log w ++ [RPut params] |})
  | None => (Rejected ValidationException, sent (RPut params) w)
  end.

Definition client_update (params : UpdateInput) : M (option Item) := fun w =>
  match update params (tbl w) with
  | Some (data, t) =>
      (Resolved data, {| tbl := t; log := log w ++ [RUpdate params] |})
  | None => (Rejected ValidationException, sent (RUpdate params) w)
  end.

Definition client_scan (params : ScanInput) : M ScanOutput := fun w =>
  match scan page_cap params (tbl w) with
  | Some data => (Resolved data, sent (RScan params) w)
  | None => (Rejected ValidationException, sent (RScan params) w)
  end.

(** *** findPerson *)

Definition find_params (ucinetid : Val) : GetInput :=
  {| get_TableName := table;
     get_Key := [("ucinetid", ucinetid)] |}.

Definition findPerson (ucinetid : Val) : M (option Item) :=
  client_get (find_params ucinetid).

(** *** scanPeople *)

(** [paramOptions]: the scan parameters a caller may add; they are spread
    over the ones the function builds. *)
Record ScanOptions := {
  opt_FilterExpression : option string;
  opt_ExpressionAttributeNames : option Obj;
  opt_ExclusiveStartKey : option Obj;
  opt_Limit : option nat }.

(** The default [paramOptions = {}]. *)
Definition no_options : ScanOptions :=
  {| opt_FilterExpression := None; opt_ExpressionAttributeNames := None;
     opt_ExclusiveStartKey := None; opt_Limit := None |}.

(** [{...a, ...b}] on one property. *)
Definition spread {A} (a b : option A) : option A :=
  match b with Some _ => b | None => a end.

(** The [filter] object: its [FilterExpression] and its
    [ExpressionAttributeNames], both missing for the sentinel. *)
Definition filter_of (service : string) : option string * option Obj :=
  if test_all service then (None, None)
  else (Some "attribute_exists(#services.#serviceName)",
        Some [("#services", VStr "_services"); ("#serviceName", VStr service)]).

Definition scan_params (service : string) (paramOptions : ScanOptions)
    : ScanInput :=
  let filter := filter_of service in
  {| scan_TableName := table;
     scan_FilterExpression := spread (fst filter) (opt_FilterExpression paramOptions);
     scan_ExpressionAttributeNames :=
       spread (snd filter) (opt_ExpressionAttributeNames paramOptions);
     scan_ExclusiveStartKey := opt_ExclusiveStartKey paramOptions;
     scan_Limit := opt_Limit paramOptions |}.

(** [params.ExclusiveStartKey = key] *)
Definition continue_from (key : Obj) (params : ScanInput) : ScanInput :=
  {| scan_TableName := scan_TableName params;
     scan_FilterExpression := scan_FilterExpression params;
     scan_ExpressionAttributeNames := scan_ExpressionAttributeNames params;
     scan_ExclusiveStartKey := Some key;
     scan_Limit := scan_Limit params |}.

(** [onScan], entered once per response. The chain of callbacks goes on
    for as long as the service hands out a [LastEvaluatedKey]; [fuel]
    bounds the number of requests the model follows, and the promise is
    [Pending] when it runs out. *)
Fixpoint onScan (fuel : nat) (params : ScanInput) (out : list Item)
    : M (list Item) :=
  match fuel with
  | O => fun w => (Pending, w)
  | S fuel' =>
      data <- client_scan params ;;
      let out := out ++ Items data in
      match LastEvaluatedKey data with
      | Some key => onScan fuel' (continue_from key params) out
      | None => ret out
      end
  end.

Definition scanPeople (fuel : nat) (service : string) (paramOptions : ScanOptions)
    : M (list Item) :=
  onScan fuel (scan_params service paramOptions) [].

(** *** createPerson *)

Definition create_params (ucinetid : string) (person : Obj) : PutInput :=
  {| put_TableName := table;
     put_Item :=
       [("ucinetid", VStr ucinetid);
        ("firstName", obj_get "firstName" person);
        ("lastName", obj_get "lastName" person)]
       ++ (if truthy (obj_get "firstName" person) then [] else [])
       ++ (if truthy (obj_get "middleName" person)
           then [("middleName", obj_get "middleName" person)] else [])
       ++ (if truthy (obj_get "email" person)
           then [("email", obj_get "email" person)] else [])
       ++ (if truthy (obj_get "photo" person)
           then [("photo", obj_get "photo" person)] else [])
       ++ [("_services", VObj [])] |}.

Definition createPerson (person : Obj) : M (option Item) :=
  ucinetid <- lower_of (obj_get "ucinetid" person) ;;
  let params := create_params ucinetid person in
  _ <- client_put params ;;
  findPerson (obj_get "ucinetid" (put_Item params)).

(** *** updatePerson *)

(** The properties [updatePerson] leaves alone. *)
Definition not_updated : list string :=
  ["ucinetid"; "service"; "services"; "_services"].

(** The own property names that pass the filter. *)
Definition updatable (person : Obj) : list string :=
  List.filter (fun key => negb (includes not_updated key))
    (getOwnPropertyNames person).

Definition update_params (person : Obj) : UpdateInput :=
  let names := updatable person in
  let keys := map (fun key => key +:+ " = :" +:+ key) names in
  let values := map (fun key => (":" +:+ key, obj_get key person)) names in
  {| upd_TableName := table;
     upd_Key := [("ucinetid", obj_get "ucinetid" person)];
     upd_UpdateExpression := "set " +:+ join ", " keys;
     upd_ExpressionAttributeNames := None;
     upd_ExpressionAttributeValues := Some values;
     upd_ReturnValues := "ALL_NEW" |}.

Definition updatePerson (person : Obj) : M (option Item) :=
  _ <- client_update (update_params person) ;;
  findPerson (obj_get "ucinetid" person).

(** *** upsertPerson *)

Definition upsertPerson (person : Obj) : M (option Item) :=
  ucinetid <- lower_of (obj_get "ucinetid" person) ;;
  foundPerson <- findPerson (VStr ucinetid) ;;
  match foundPerson with
  | Some _ => updatePerson person
  | None => createPerson person
  end.

(** *** setPermission *)

(** [new Error(`There is no one with ucinetid ${ucinetid}`)] *)
Definition no_one (ucinetid : string) : Error :=
  JsError ("There is no one with ucinetid " +:+ ucinetid).

Definition set_params (ucinetid : string) (permission : Obj) : UpdateInput :=
  {| upd_TableName := table;
     upd_Key := [("ucinetid", VStr ucinetid)];
     upd_UpdateExpression := "set #services.#serviceName = :permission";
     upd_ExpressionAttributeNames :=
       Some [("#services", VStr "_services");
             ("#serviceName", obj_get "service" permission)];
     upd_ExpressionAttributeValues := Some [(":permission", VObj permission)];
     upd_ReturnValues := "ALL_NEW" |}.

Definition setPermission (ucinetid : string) (permission : Obj)
    : M (option Item) :=
  let ucinetid := toLowerCase ucinetid in
  foundPerson <- findPerson (VStr ucinetid) ;;
  match foundPerson with
  | None => throw (no_one ucinetid)
  | Some _ =>
      _ <- client_update (set_params ucinetid permission) ;;
      findPerson (VStr ucinetid)
  end.

(** *** removePermission *)

Definition remove_params (ucinetid : string) (service : string) : UpdateInput :=
  {| upd_TableName := table;
     upd_Key := [("ucinetid", VStr ucinetid)];
     upd_UpdateExpression := "remove #services.#serviceName";
     upd_ExpressionAttributeNames :=
       Some [("#services", VStr "_services"); ("#serviceName", VStr service)];
     upd_ExpressionAttributeValues := None;
     upd_ReturnValues := "ALL_NEW" |}.

Definition removePermission (ucinetid : string) (service : string)
    : M (option Item) :=
  let ucinetid := toLowerCase ucinetid in
  foundPerson <- findPerson (VStr ucinetid) ;;
  match foundPerson with
  | None => throw (no_one ucinetid)
  | Some _ =>
      _ <- client_update (remove_params ucinetid service) ;;
      findPerson (VStr ucinetid)
  end.

End Store.

End Model.
Import Model.



(* ===================================================================== *)
(** ** Vocabulary of the properties *)
(* ===================================================================== *)

(** *** Requests *)

(** The lookup [findPerson] sends for a string. *)
Definition get_request (table ucinetid : string) : Request :=
  RGet (find_params table (VStr ucinetid)).

(** The scan parameters with filter [fe], names [nm] and cursor [c], and
    no [Limit]: what [scanPeople] sends page after page. *)
Definition page_params (table : string) (fe : option string) (nm : option Obj)
    (c : option Obj) : ScanInput :=
  {| scan_TableName := table;
     scan_FilterExpression := fe;
     scan_ExpressionAttributeNames := nm;
     scan_ExclusiveStartKey := c;
     scan_Limit := None |}.

(** The cursor [c] stands before the items [rest] of table [t]. *)
Definition cursor_at (t : Table) (c : option Obj) (rest : list (string * Item))
    : Prop :=
  match c with
  | None => rest = map_to_list t
  | Some o => exists k, o = key_obj k /\ after k (map_to_list t) = rest
  end.

Definition cursor_key (c : option Obj) : option string :=
  match c with None => None | Some o => key_of o end.

Definition same_filter (fe : option string) (nm : option Obj) (r : ScanInput)
    : Prop :=
  scan_FilterExpression r = fe /\ scan_ExpressionAttributeNames r = nm.

(** *** Ids *)

(** A UCInetID as the statements take it: a key value the service takes
    (not empty, at most 2048 bytes) and of ASCII characters (on which
    [toLowerCase] is JavaScript's). *)
Definition netid (id : string) : Prop :=
  key_string id = true /\ is_ascii id = true.

(** The service takes the key [k] on table [t]: it is a key value (or, on
    a table no run of the service gives, it names a stored item). *)
Definition accepted (k : string) (t : Table) : Prop :=
  key_string k = true \/ is_Some (t !! k).

(** *** Persons and services *)

(** A stored person has its services map, the attribute [_services]. *)
Definition has_services (item : Item) (m : Item) : Prop :=
  item !! "_services" = Some (AM m).

(** The person's services map contains the key [s]. *)
Definition holds_service (s : string) (item : Item) : bool :=
  match item !! "_services" with
  | Some (AM m) => bool_decide (is_Some (m !! s))
  | _ => false
  end.

(** What [list(serviceFilter)] is to select: everybody for the sentinel,
    the holders of the service otherwise. *)
Definition selected (serviceFilter : string) (item : Item) : bool :=
  if test_all serviceFilter then true else holds_service serviceFilter item.

(** The stored persons, in the order the table is read. *)
Definition people (t : Table) : list Item := map snd (map_to_list t).

(** The persons holding a permission for service [s]. *)
Definition holders (s : string) (t : Table) : list Item :=
  List.filter (holds_service s) (people t).


(** *** Creation *)

(** Values that always marshal: everything but arrays, objects and the
    numbers the service does not store. *)
Definition scalar (v : Val) : bool :=
  match v with
  | VArr _ | VObj _ => false
  | VNum n => number_ok n
  | _ => true
  end.

Definition scalar_fields (person : Obj) : Prop :=
  Forall (fun f => scalar (obj_get f person) = true)
    ["firstName"; "lastName"; "middleName"; "email"; "photo"].

(** The attribute a property contributes to the item that is sent. *)
Definition with_field (f : string) (v : Val) (m : Item) : Item :=
  match marshal v with
  | WOk a => <[f := a]> m
  | _ => m
  end.

(** [...(v ? { f: v } : {})] *)
Definition with_optional (f : string) (v : Val) (m : Item) : Item :=
  if truthy v then with_field f v m else m.

(** The item [createPerson] puts for a person whose id lowercases to [k]. *)
Definition created_item (k : string) (person : Obj) : Item :=
  <["ucinetid" := AS k]>
    (with_field "firstName" (obj_get "firstName" person)
    (with_field "lastName" (obj_get "lastName" person)
    (with_optional "middleName" (obj_get "middleName" person)
    (with_optional "email" (obj_get "email" person)
    (with_optional "photo" (obj_get "photo" person)
    (<["_services" := AM ∅]> ∅)))))).

(** An optional field as a caller supplies it: missing, null or a string. *)
Definition optional_string (v : Val) : bool :=
  match v with
  | VUndef | VNull | VStr _ => true
  | _ => false
  end.

(** A valid creation input: [id], [firstName] and [lastName] are present
    strings, the id a UCInetID, the optional fields are optional strings. *)
Definition valid_creation_input (person : Obj) (id fn ln : string) : Prop :=
  obj_get "ucinetid" person = VStr id
  /\ netid id
  /\ obj_get "firstName" person = VStr fn
  /\ obj_get "lastName" person = VStr ln
  /\ Forall (fun f => optional_string (obj_get f person) = true)
       ["email"; "middleName"; "photo"].

(** What the record holds for an optional field: the string when one was
    supplied and is not empty, nothing otherwise. *)
Definition supplied (v : Val) : option Attr :=
  match v with
  | VStr s => if String.eqb s "" then None else Some (AS s)
  | _ => None
  end.

(** *** Upsert, as the specification words it *)


(** *** A small directory to run the operations on *)

Definition edu_people : string := "edu-people".

(** Every page holds one item: the most page boundaries there can be. *)
Definition one_per_page : option string -> nat := fun _ => 0.

Definition empty_world : World := {| tbl := ∅; log := [] |}.

Definition abc_person : Obj :=
  [("ucinetid", VStr "abc123"); ("firstName", VStr "Ada");
   ("lastName", VStr "Byron")].

(** The directory after [createPerson(abc_person)]. *)
Definition abc_world : World :=
  snd (createPerson edu_people abc_person empty_world).

Definition abc_item : Item := created_item "abc123" abc_person.

Definition svc1_permission : Obj :=
  [("service", VStr "svc1"); ("roles", VArr [VStr "admin"]);
   ("settings", VObj [("a", VNum 1)])].

(** A person with every optional field given, one empty and one null. *)
Definition full_person : Obj :=
  [("ucinetid", VStr "Xyz9"); ("firstName", VStr "Grace");
   ("lastName", VStr "Hopper"); ("email", VStr "grace@uci.edu");
   ("middleName", VStr ""); ("photo", VNull)].

(** A person without [firstName]. *)
Definition nameless_person : Obj :=
  [("ucinetid", VStr "abc123"); ("lastName", VStr "Byron")].

(** Two persons, one of them with a permission for "svc1". *)
Definition two_people : World :=
  snd (setPermission edu_people "abc123" svc1_permission
         (snd (createPerson edu_people full_person abc_world))).

(** A partial person with an id the directory does not hold, and the
    directory after [updatePerson] was called with it: the update created
    a record, which has no services map. *)
Definition new1_update : Obj :=
  [("ucinetid", VStr "new1"); ("lastName", VStr "King")].

Definition new1_world : World :=
  snd (updatePerson edu_people new1_update abc_world).

(** A person with no services map at all, and one whose only service is [s]. *)
Definition bare_item : Item := {[ "ucinetid" := AS "p" ]}.

Definition holder_item (s : string) : Item :=
  <["_services" := AM {[ s := ANull ]}]> bare_item.

(** *** Field names and values of a partial person *)

Fixpoint all_word (s : string) : bool :=
  match s with
  | EmptyString => true
  | String c s' => is_word c && all_word s'
  end.

Definition starts_alpha (s : string) : bool :=
  match s with
  | String c _ => is_alpha c
  | EmptyString => false
  end.

(** A property name that an update expression can spell as it is: letters,
    digits and underscores after a first letter, and not a reserved word
    (the words that open a clause are among them). *)
Definition plain_name (n : string) : bool :=
  starts_alpha n && all_word n && negb (reserved_word n)
  && match keyword_of (TIdent n) with None => true | Some _ => false end.

(** The profile fields of a person. *)
Definition profile_fields : list string :=
  ["firstName"; "lastName"; "middleName"; "email"; "photo"].

(** The attribute a value is stored as, for the values that marshal. *)
Definition stored (v : Val) : option Attr :=
  match marshal v with
  | WOk a => Some a
  | _ => None
  end.

(** [key = :key] and the tokens it is read as. *)
Definition assignment (key : string) : string := key +:+ " = :" +:+ key.

Definition assignment_tokens (key : string) : list token :=
  [TIdent key; TEq; TValue (":" +:+ key)].

Fixpoint assignments_tokens (keys : list string) : list token :=
  match keys with
  | [] => []
  | [key] => assignment_tokens key
  | key :: keys' => assignment_tokens key ++ TComma :: assignments_tokens keys'
  end.

(** The item after the fields [names] of [person] are set in [item]. *)
Definition set_fields (person : Obj) (names : list string) (item : Item) : Item :=
  foldl (fun m n => match stored (obj_get n person) with
                    | Some a => <[n := a]> m
                    | None => m
                    end) item names.

(** The action [key = :key] is parsed into. *)
Definition raw_assignment (key : string) : raw_action :=
  RawSet [PRaw key] (":" +:+ key).

(** The values [updatePerson] sends, once marshalled. *)
Definition sent_values (person : Obj) (names : list string) : Item :=
  foldr (fun n m => match stored (obj_get n person) with
                    | Some a => <[":" +:+ n := a]> m
                    | None => m
                    end) ∅ names.

(** Every field to set has a value that marshals (it is not [undefined]
    and holds no number outside the range of the service). *)
Definition storable_fields (person : Obj) (names : list string) : Prop :=
  Forall (fun n => is_Some (stored (obj_get n person))) names.

(** The item an update starts from: the stored one, or one that holds
    only the key. *)
Definition base_item (t : Table) (k : string) : Item :=
  default {[ key_name := AS k ]} (t !! k).

(** A partial person [updatePerson] can send: a string id the service
    takes as a key value, at least one field to set, the fields among the
    profile fields and the values storable. *)
Definition updatable_person (person : Obj) (id : string) : Prop :=
  obj_get "ucinetid" person = VStr id
  /\ key_string id = true
  /\ updatable person <> []
  /\ NoDup (updatable person)
  /\ Forall (fun n => n ∈ profile_fields) (updatable person)
  /\ storable_fields person (updatable person).

(** A partial person that renames "abc123" and blanks the email. *)
Definition abc_update : Obj :=
  [("ucinetid", VStr "abc123"); ("lastName", VStr "King"); ("email", VStr "");
   ("services", VObj [("svc9", VNull)])].

Definition svc2_permission : Obj :=
  [("service", VStr "svc2"); ("roles", VArr []); ("settings", VNull)].

(** *** Scans with options *)

(** The scan parameters with a [Limit]. *)
Definition limited_params (table : string) (fe : option string)
    (nm : option Obj) (lim : option nat) (c : option Obj) : ScanInput :=
  {| scan_TableName := table;
     scan_FilterExpression := fe;
     scan_ExpressionAttributeNames := nm;
     scan_ExclusiveStartKey := c;
     scan_Limit := lim |}.

(** The items one response reads: as many as the page holds, and not more
    than [Limit]. *)
Definition page_size (page_cap : option string -> nat) (lim : option nat)
    (c : option Obj) : nat :=
  match lim with
  | None => S (page_cap (cursor_key c))
  | Some l => Nat.min l (S (page_cap (cursor_key c)))
  end.

(** The page stopped at [Limit]: as many items were left as it allows. *)
Definition at_limit (lim : option nat) (rest : list (string * Item)) : bool :=
  match lim with
  | Some l => (l <=? length rest)%nat
  | None => false
  end.

(** [paramOptions = { Limit: n }] *)
Definition limit_option (n : nat) : ScanOptions :=
  {| opt_FilterExpression := None; opt_ExpressionAttributeNames := None;
     opt_ExclusiveStartKey := None; opt_Limit := Some n |}.

(** *** The directory as the operations are meant to keep it *)

(** Every record carries the key it is stored under and has a services
    map. *)
Definition directory_ok (t : Table) : Prop :=
  forall k item,
    t !! k = Some item ->
    item !! "ucinetid" = Some (AS k) /\ exists m, has_services item m.

(** *** Persons that carry profile fields only *)

(** A person with a lower-case id (a UCInetID: not empty, ASCII) whose
    other properties are profile fields, at least one of them, each
    holding a non-empty string. *)
Definition profile_person (person : Obj) (id : string) : Prop :=
  obj_get "ucinetid" person = VStr id
  /\ netid id
  /\ toLowerCase id = id
  /\ updatable person <> []
  /\ NoDup (updatable person)
  /\ Forall (fun n => n ∈ profile_fields
                      /\ exists s, obj_get n person = VStr s /\ s <> "")
       (updatable person).

(* ===================================================================== *)
(** ** Properties of the table service *)
(* ===================================================================== *)

Lemma marshal_obj_nil : marshal_obj [] = Some ∅.
Proof. reflexivity. Qed.

(** Marshalling an object goes property by property; a property holding
    [undefined] is dropped. *)
Lemma marshal_obj_cons (k : string) (x : Val) (o : Obj) :
  marshal_obj ((k, x) :: o) =
  match marshal_obj o with
  | None => None
  | Some m =>
      match marshal x with
      | WAbsent => Some m
      | WBad => None
      | WOk a => Some (<[k := a]> m)
      end
  end.
Proof.
  unfold marshal_obj. cbn [marshal].
  match goal with |- context [?f o] => destruct (f o) as [m|] end;
    [|reflexivity].
  destruct (marshal x); reflexivity.
Qed.

Lemma marshal_VObj (o : Obj) :
  marshal (VObj o) =
  match marshal_obj o with Some m => WOk (AM m) | None => WBad end.
Proof.
  unfold marshal_obj. cbn [marshal].
  match goal with |- context [?f o] => destruct (f o) as [m|] end; reflexivity.
Qed.

Lemma key_of_string (k : string) : key_of [("ucinetid", VStr k)] = Some k.
Proof.
  unfold key_of. rewrite marshal_obj_cons, marshal_obj_nil. cbn [marshal].
  unfold key_name. rewrite lookup_insert_eq.
  rewrite insert_empty, decide_True; [reflexivity|].
  by rewrite map_size_singleton.
Qed.

Lemma key_of_key_obj (k : string) : key_of (key_obj k) = Some k.
Proof. apply key_of_string. Qed.

Lemma length_toLowerCase (s : string) :
  String.length (toLowerCase s) = String.length s.
Proof. induction s as [|c s IH]; cbn; [done | by rewrite IH]. Qed.

Lemma key_string_lower (s : string) : key_string (toLowerCase s) = key_string s.
Proof.
  unfold key_string. rewrite length_toLowerCase. by destruct s.
Qed.

Lemma toLowerCase_ascii (s : string) :
  is_ascii s = true -> is_ascii (toLowerCase s) = true.
Proof.
  induction s as [|c s IH]; cbn [is_ascii toLowerCase]; [done|].
  rewrite !andb_true_iff. intros [Hc Hs]. split; [|by apply IH].
  revert Hc. destruct c as [[] [] [] [] [] [] [] []]; vm_compute; congruence.
Qed.

Lemma netid_lower (id : string) : netid id -> netid (toLowerCase id).
Proof.
  intros [Hk Ha]. split; [by rewrite key_string_lower | by apply toLowerCase_ascii].
Qed.

Lemma refused_accepted (k : string) (t : Table) :
  accepted k t -> refused k t = false.
Proof.
  unfold refused. intros [Hk|[item Hitem]].
  - by rewrite Hk.
  - rewrite Hitem, bool_decide_eq_false_2 by discriminate. apply andb_false_r.
Qed.

Lemma refused_key (k : string) (t : Table) :
  key_string k = false -> t !! k = None -> refused k t = true.
Proof. intros Hk H. unfold refused. by rewrite Hk, H. Qed.

(** Discharges [accepted]: the key is a key value, or the table holds it. *)
Ltac accept_key :=
  lazymatch goal with
  | |- accepted ?k ?t =>
      first
        [ match goal with H : t !! k = Some _ |- _ => right; eexists; exact H end
        | match goal with H : key_string k = true |- _ => left; exact H end
        | match goal with
          | H : key_string ?id = true |- _ =>
              left; rewrite key_string_lower; exact H
          end
        | right; cbn [tbl]; rewrite lookup_insert_eq; eexists; reflexivity
        | left; reflexivity ]
  end.

Lemma get_string (tn k : string) (t : Table) :
  accepted k t ->
  get {| get_TableName := tn; get_Key := [("ucinetid", VStr k)] |} t
  = Some (t !! k).
Proof.
  intros Hk. unfold get. cbn [get_Key].
  by rewrite key_of_string, refused_accepted.
Qed.

Lemma parse_set_permission :
  parse_update "set #services.#serviceName = :permission"
  = Some [RawSet [PRef "#services"; PRef "#serviceName"] ":permission"].
Proof. vm_compute. reflexivity. Qed.

Lemma parse_remove_permission :
  parse_update "remove #services.#serviceName"
  = Some [RawRemove [PRef "#services"; PRef "#serviceName"]].
Proof. vm_compute. reflexivity. Qed.

Lemma parse_set_nothing : parse_update "set " = None.
Proof. vm_compute. reflexivity. Qed.

Lemma parse_has_service :
  parse_condition "attribute_exists(#services.#serviceName)"
  = Some (CExists [PRef "#services"; PRef "#serviceName"]).
Proof. vm_compute. reflexivity. Qed.

(** [findPerson] with a string is a plain lookup under that very string. *)
Lemma findPerson_string (table k : string) (w : World) :
  accepted k (tbl w) ->
  findPerson table (VStr k) w
  = (Resolved (tbl w !! k), sent (get_request table k) w).
Proof.
  intros Hk. unfold findPerson, client_get, find_params. by rewrite get_string.
Qed.

(** With a string the service does not take as a key value the lookup is
    rejected. *)
Lemma findPerson_refused (table k : string) (w : World) :
  key_string k = false ->
  tbl w !! k = None ->
  findPerson table (VStr k) w
  = (Rejected ValidationException, sent (get_request table k) w).
Proof.
  intros Hk H. unfold findPerson, client_get, find_params, get. cbn [get_Key].
  by rewrite key_of_string, refused_key.
Qed.

(** A lookup that finds nothing resolves with [undefined], unless the
    service does not take the key. *)
Lemma findPerson_absent (table k : string) (w : World) :
  tbl w !! k = None ->
  findPerson table (VStr k) w
  = (if key_string k then Resolved None else Rejected ValidationException,
     sent (get_request table k) w).
Proof.
  intros H. destruct (key_string k) eqn:Hk.
  - by rewrite findPerson_string, H by accept_key.
  - by apply findPerson_refused.
Qed.

Section UpdateFacts.

Variable table : string.

(** On an item that has its [_services] map, the update of
    [setPermission] writes the one entry and nothing else. *)
Lemma update_set_params (k s : string) (permission : Obj) (pm m : Item)
    (item : Item) (t : Table) :
  t !! k = Some item ->
  item !! "_services" = Some (AM m) ->
  name_of (obj_get "service" permission) = Some s ->
  marshal_obj permission = Some pm ->
  let item' := <["_services" := AM (<[s := AM pm]> m)]> item in
  update (set_params table k permission) t = Some (Some item', <[k := item']> t).
Proof.
  intros Ht Hm Hs Hpm item'. unfold update, set_params.
  cbn [upd_Key upd_UpdateExpression upd_ExpressionAttributeNames
       upd_ExpressionAttributeValues upd_ReturnValues default from_option id].
  rewrite key_of_string, parse_set_permission.
  rewrite marshal_obj_cons, marshal_obj_nil, marshal_VObj, Hpm.
  rewrite refused_accepted by accept_key.
  cbn [map concat raw_path raw_values path_refs omap app].
  replace (names_ok _ _) with true by reflexivity.
  replace (values_ok _ _ _) with true by reflexivity.
  cbn [negb andb resolve_action resolve_path resolve_elem map all_some default
       from_option id obj_get String.eqb Ascii.eqb Bool.eqb name_of].
  rewrite Hs. rewrite lookup_insert_eq.
  cbn [all_some forallb map action_path touches_key no_overlap negb andb].
  replace (String.eqb "_services" key_name) with false by reflexivity.
  cbn [negb andb]. rewrite Ht.
  cbn [default from_option id apply_actions apply_action set_path]. rewrite Hm.
  reflexivity.
Qed.

(** On an item that has its [_services] map, the update of
    [removePermission] deletes the one entry, present or not. *)
Lemma update_remove_params (k s : string) (m : Item) (item : Item) (t : Table) :
  t !! k = Some item ->
  item !! "_services" = Some (AM m) ->
  let item' := <["_services" := AM (delete s m)]> item in
  update (remove_params table k s) t = Some (Some item', <[k := item']> t).
Proof.
  intros Ht Hm item'. unfold update, remove_params.
  cbn [upd_Key upd_UpdateExpression upd_ExpressionAttributeNames
       upd_ExpressionAttributeValues upd_ReturnValues default from_option id].
  rewrite key_of_string, parse_remove_permission, marshal_obj_nil.
  rewrite refused_accepted by accept_key.
  cbn [map concat raw_path raw_values path_refs omap app].
  replace (names_ok _ _) with true by reflexivity.
  replace (values_ok _ _ _) with true by reflexivity.
  cbn [negb andb resolve_action resolve_path resolve_elem map all_some default
       from_option id obj_get String.eqb Ascii.eqb Bool.eqb name_of].
  cbn [all_some forallb map action_path touches_key no_overlap negb andb].
  replace (String.eqb "_services" key_name) with false by reflexivity.
  cbn [negb andb]. rewrite Ht.
  cbn [default from_option id apply_actions apply_action remove_path].
  rewrite Hm. reflexivity.
Qed.

(** An update whose expression does not parse is rejected, whatever the
    key and the values. *)
Lemma update_syntax_error (req : UpdateInput) (t : Table) :
  parse_update (upd_UpdateExpression req) = None -> update req t = None.
Proof.
  intros H. unfold update. rewrite H.
  destruct (key_of (upd_Key req)); reflexivity.
Qed.

End UpdateFacts.

(* ===================================================================== *)
(** ** The scan loop *)
(* ===================================================================== *)

Lemma after_split (l l1 l2 : list (string * Item)) (k : string) (v : Item) :
  NoDup (map fst l) -> l = l1 ++ (k, v) :: l2 -> after k l = l2.
Proof.
  intros Hnd ->. induction l1 as [|[k' v'] l1 IH]; cbn [after app].
  - by rewrite String.eqb_refl.
  - cbn [app map fst] in Hnd. apply NoDup_cons in Hnd as [Hk' Hnd].
    destruct (String.eqb_spec k' k) as [->|_]; [|by apply IH].
    exfalso. apply Hk'. rewrite map_app. cbn [map fst].
    apply elem_of_app. right. apply elem_of_cons. by left.
Qed.

Lemma filter_all {A} (l : list A) : List.filter (fun _ => true) l = l.
Proof. induction l as [|x l IH]; cbn; [done | by rewrite IH]. Qed.


Section ScanFacts.

Variable table : string.
Variable page_cap : option string -> nat.

(** A filter the service accepts, and what it evaluates to. *)
Variable fe : option string.
Variable nm : option Obj.
Variable cond : option (bool * list string).
Hypothesis Hcond : resolve_condition nm fe = Some cond.

Lemma scan_page (t : Table) (c : option Obj) (rest : list (string * Item)) :
  cursor_at t c rest ->
  let n := S (page_cap (cursor_key c)) in
  scan page_cap (page_params table fe nm c) t
  = Some {| Items := List.filter (eval_condition cond) (map snd (take n rest));
            LastEvaluatedKey :=
              if (length rest <=? n)%nat then None
              else match last (take n rest) with
                   | Some (k, _) => Some (key_obj k)
                   | None => None
                   end |}.
Proof.
  intros Hc n. unfold scan, page_params.
  cbn [scan_ExpressionAttributeNames scan_FilterExpression
       scan_ExclusiveStartKey scan_Limit].
  rewrite Hcond. destruct c as [o|]; cbn [cursor_at cursor_key] in *.
  - destruct Hc as (k & -> & Hrest). subst n. cbn [cursor_key].
    rewrite key_of_key_obj. rewrite bool_decide_eq_false_2 by discriminate.
    cbn [negb]. by rewrite andb_true_r, Hrest.
  - rewrite bool_decide_eq_false_2 by discriminate.
    cbn [negb]. by rewrite andb_true_r, Hc.
Qed.

(** With more fuel than items left, the loop resolves with everything the
    filter keeps of the items left, whatever the page boundaries; it only
    sends scans, all with the same filter, and leaves the table alone. *)
Lemma onScan_from (fuel : nat) :
  forall (c : option Obj) (pre rest : list (string * Item))
         (out : list Item) (w : World),
    map_to_list (tbl w) = pre ++ rest ->
    cursor_at (tbl w) c rest ->
    length rest < fuel ->
    exists reqs,
      onScan page_cap fuel (page_params table fe nm c) out w
      = (Resolved (out ++ List.filter (eval_condition cond) (map snd rest)),
         {| tbl := tbl w; log := log w ++ map RScan reqs |})
      /\ reqs <> [] /\ Forall (same_filter fe nm) reqs.
Proof.
  induction fuel as [|fuel IH]; intros c pre rest out w Hl Hc Hlen; [lia|].
  cbn [onScan]. unfold bind at 1. unfold client_scan.
  rewrite (scan_page _ _ _ Hc). cbn [Items LastEvaluatedKey].
  set (n := S (page_cap (cursor_key c))).
  destruct (Nat.leb_spec (length rest) n) as [Hle|Hgt].
  - exists [page_params table fe nm c]. split; [|split; [done|]].
    + unfold ret. rewrite take_ge by lia. reflexivity.
    + constructor; [done | constructor].
  - destruct (last (take n rest)) as [[k v]|] eqn:Hlast.
    2:{ apply last_None in Hlast. apply (f_equal length) in Hlast.
        rewrite length_take in Hlast. unfold n in *. cbn [length] in Hlast. lia. }
    apply last_Some in Hlast as [ini Hini].
    change (continue_from (key_obj k) (page_params table fe nm c))
      with (page_params table fe nm (Some (key_obj k))).
    destruct (IH (Some (key_obj k)) (pre ++ take n rest) (drop n rest)
                (out ++ List.filter (eval_condition cond) (map snd (take n rest)))
                (sent (RScan (page_params table fe nm c)) w)) as (reqs & Hrun & _ & Hall).
    + cbn [sent tbl]. by rewrite Hl, <- app_assoc, take_drop.
    + cbn [sent tbl cursor_at]. exists k. split; [done|].
      apply (after_split _ (pre ++ ini) _ k v).
      * apply NoDup_fst_map_to_list.
      * rewrite Hl, <- (take_drop n rest) at 1.
        by rewrite Hini, <- !app_assoc.
    + rewrite length_drop. lia.
    + exists (page_params table fe nm c :: reqs). split; [|split; [done|]].
      * rewrite Hrun. cbn [sent tbl log map].
        rewrite <- !app_assoc, <- List.filter_app, <- map_app, take_drop.
        reflexivity.
      * constructor; [done | exact Hall].
Qed.

End ScanFacts.

(* ===================================================================== *)
(** ** Filters and the selected persons *)
(* ===================================================================== *)

Lemma test_all_spec (s : string) : test_all s = true <-> toLowerCase s = "all".
Proof.
  destruct s as [|a [|b [|c [|d s]]]]; cbn; try (split; discriminate).
  unfold ci_char. rewrite !andb_true_iff.
  replace (lower_ascii "a") with "a"%char by reflexivity.
  replace (lower_ascii "l") with "l"%char by reflexivity.
  rewrite !Ascii.eqb_eq. split.
  - intros [[-> ->] ->]. reflexivity.
  - intros H. injection H as -> -> ->. done.
Qed.

Lemma eval_has_service (s : string) (item : Item) :
  eval_condition (Some (true, ["_services"; s])) item = holds_service s item.
Proof.
  unfold eval_condition, holds_service. cbn [lookup_path].
  destruct (item !! "_services") as [[| | | | |m]|]; try reflexivity;
    apply bool_decide_eq_false_2; by intros [? ?].
Qed.

Lemma resolve_filter_of (service : string) :
  resolve_condition (snd (filter_of service)) (fst (filter_of service))
  = Some (if test_all service then None
          else Some (true, ["_services"; service])).
Proof.
  unfold filter_of. destruct (test_all service); cbn [fst snd]; [reflexivity|].
  unfold resolve_condition. rewrite parse_has_service.
  replace (names_ok _ _) with true by reflexivity.
  reflexivity.
Qed.

(** [scanPeople] with the default [paramOptions]: with more fuel than the
    table has items it resolves with the selected persons, having sent
    only scans that carry the filter it built. *)
Lemma scanPeople_result (table : string) (page_cap : option string -> nat)
    (fuel : nat) (service : string) (w : World) :
  size (tbl w) < fuel ->
  exists reqs,
    scanPeople table page_cap fuel service no_options w
    = (Resolved (List.filter (selected service) (people (tbl w))),
       {| tbl := tbl w; log := log w ++ map RScan reqs |})
    /\ reqs <> []
    /\ Forall (fun r => scan_FilterExpression r = fst (filter_of service)
                        /\ scan_ExpressionAttributeNames r = snd (filter_of service))
         reqs.
Proof.
  intros Hfuel. unfold scanPeople.
  change (scan_params table service no_options)
    with (page_params table (fst (filter_of service)) (snd (filter_of service))
            None).
  destruct (onScan_from table page_cap _ _ _ (resolve_filter_of service) fuel
              None [] (map_to_list (tbl w)) [] w) as (reqs & Hrun & Hne & Hall).
  - reflexivity.
  - reflexivity.
  - by rewrite length_map_to_list.
  - exists reqs. split; [|by split].
    rewrite Hrun. cbn [app]. do 2 f_equal.
    unfold people, selected. apply List.filter_ext. intros item.
    destruct (test_all service); [reflexivity | apply eval_has_service].
Qed.

(* ===================================================================== *)
(** ** Running the permission operations *)
(* ===================================================================== *)

Section Runs.

Variable table : string.

(** [setPermission] on a stored person: lookup, update, lookup. *)
Lemma setPermission_run (id s : string) (permission : Obj) (pm m item : Item)
    (w : World) :
  tbl w !! toLowerCase id = Some item ->
  has_services item m ->
  obj_get "service" permission = VStr s ->
  marshal_obj permission = Some pm ->
  let k := toLowerCase id in
  let item' := <["_services" := AM (<[s := AM pm]> m)]> item in
  setPermission table id permission w
  = (Resolved (Some item'),
     {| tbl := <[k := item']> (tbl w);
        log := log w ++ [get_request table k;
                         RUpdate (set_params table k permission);
                         get_request table k] |}).
Proof.
  intros Hitem Hm Hs Hpm k item'. unfold setPermission, bind.
  cbv zeta. fold k. fold k in Hitem.
  rewrite findPerson_string, Hitem by accept_key. unfold client_update.
  change (update _ (tbl (sent (get_request table k) w)))
    with (update (set_params table k permission) (tbl w)).
  rewrite (update_set_params table k s permission pm m item (tbl w))
    by (try assumption; by rewrite Hs).
  rewrite findPerson_string by accept_key. unfold sent. cbn [tbl log].
  rewrite lookup_insert_eq, <- !app_assoc. reflexivity.
Qed.

(** [removePermission] on a stored person: lookup, update, lookup. *)
Lemma removePermission_run (id s : string) (m item : Item) (w : World) :
  tbl w !! toLowerCase id = Some item ->
  has_services item m ->
  let k := toLowerCase id in
  let item' := <["_services" := AM (delete s m)]> item in
  removePermission table id s w
  = (Resolved (Some item'),
     {| tbl := <[k := item']> (tbl w);
        log := log w ++ [get_request table k;
                         RUpdate (remove_params table k s);
                         get_request table k] |}).
Proof.
  intros Hitem Hm k item'. unfold removePermission, bind.
  cbv zeta. fold k. fold k in Hitem.
  rewrite findPerson_string, Hitem by accept_key. unfold client_update.
  change (update _ (tbl (sent (get_request table k) w)))
    with (update (remove_params table k s) (tbl w)).
  rewrite (update_remove_params table k s m item (tbl w)) by assumption.
  rewrite findPerson_string by accept_key. unfold sent. cbn [tbl log].
  rewrite lookup_insert_eq, <- !app_assoc. reflexivity.
Qed.



End Runs.

(* ===================================================================== *)
(** ** Running createPerson *)
(* ===================================================================== *)

Lemma marshal_obj_scalar (f : string) (v : Val) (o : Obj) (m : Item) :
  scalar v = true ->
  marshal_obj o = Some m ->
  marshal_obj ((f, v) :: o) = Some (with_field f v m).
Proof.
  intros Hv Ho. rewrite marshal_obj_cons, Ho. unfold with_field.
  destruct v; try discriminate; cbn [marshal scalar] in *;
    rewrite ?Hv; reflexivity.
Qed.

Lemma marshal_obj_optional (f : string) (v : Val) (o : Obj) (m : Item) :
  scalar v = true ->
  marshal_obj o = Some m ->
  marshal_obj ((if truthy v then [(f, v)] else []) ++ o)
  = Some (with_optional f v m).
Proof.
  intros Hv Ho. unfold with_optional. destruct (truthy v); cbn [app].
  - by apply marshal_obj_scalar.
  - exact Ho.
Qed.

Lemma lookup_with_field_ne (f k : string) (v : Val) (m : Item) :
  f <> k -> with_field f v m !! k = m !! k.
Proof.
  intros Hne. unfold with_field.
  destruct (marshal v); try reflexivity. by rewrite lookup_insert_ne.
Qed.

Lemma lookup_with_optional_ne (f k : string) (v : Val) (m : Item) :
  f <> k -> with_optional f v m !! k = m !! k.
Proof.
  intros Hne. unfold with_optional.
  destruct (truthy v); [by apply lookup_with_field_ne | reflexivity].
Qed.

Section Create.

Variable table : string.

Lemma create_params_marshal (k : string) (person : Obj) :
  scalar_fields person ->
  marshal_obj (put_Item (create_params table k person))
  = Some (created_item k person).
Proof.
  intros Hs. unfold scalar_fields in Hs. rewrite !Forall_cons in Hs.
  destruct Hs as (Hf & Hl & Hm & He & Hp & _).
  unfold create_params, created_item. cbn [put_Item app].
  replace (if truthy (obj_get "firstName" person) then [] else [])
    with (@nil (string * Val)) by (by destruct (truthy _)).
  cbn [app].
  assert (marshal_obj [("_services", VObj [])] = Some (<["_services" := AM ∅]> ∅))
    as H0 by reflexivity.
  pose proof (marshal_obj_optional "photo" _ _ _ Hp H0) as H1.
  pose proof (marshal_obj_optional "email" _ _ _ He H1) as H2.
  pose proof (marshal_obj_optional "middleName" _ _ _ Hm H2) as H3.
  pose proof (marshal_obj_scalar "lastName" _ _ _ Hl H3) as H4.
  pose proof (marshal_obj_scalar "firstName" _ _ _ Hf H4) as H5.
  rewrite marshal_obj_cons, H5. reflexivity.
Qed.

(** [createPerson] for a person with a string id and scalar fields: one
    put, one get; the item put replaces whatever was under the key, and the
    result is what the get reads back. *)
Lemma createPerson_run (id : string) (person : Obj) (w : World) :
  obj_get "ucinetid" person = VStr id ->
  key_string id = true ->
  scalar_fields person ->
  let k := toLowerCase id in
  createPerson table person w
  = (Resolved (Some (created_item k person)),
     {| tbl := <[k := created_item k person]> (tbl w);
        log := log w ++ [RPut (create_params table k person);
                         get_request table k] |}).
Proof.
  intros Hid Hne Hs k. unfold createPerson, bind at 1. rewrite Hid.
  cbn [lower_of ret]. fold k. fold (create_params table k person).
  unfold bind, client_put, put.
  rewrite (create_params_marshal k person Hs).
  unfold created_item at 1, key_name. rewrite lookup_insert_eq.
  assert (key_string k = true) as Hk by (unfold k; by rewrite key_string_lower).
  rewrite Hk.
  replace (obj_get "ucinetid" (put_Item (create_params table k person)))
    with (VStr k) by reflexivity.
  rewrite findPerson_string by accept_key. unfold sent. cbn [tbl log].
  rewrite lookup_insert_eq, <- !app_assoc. reflexivity.
Qed.

(** With an id the service does not take as a key value (the empty
    string, or one of more than 2048 bytes) the put is rejected and
    nothing is written. *)
Lemma createPerson_refused_id (id : string) (person : Obj) (w : World) :
  obj_get "ucinetid" person = VStr id ->
  key_string id = false ->
  scalar_fields person ->
  createPerson table person w
  = (Rejected ValidationException,
     sent (RPut (create_params table (toLowerCase id) person)) w).
Proof.
  intros Hid Hne Hs. unfold createPerson, bind at 1. rewrite Hid.
  cbn [lower_of ret]. fold (create_params table (toLowerCase id) person).
  unfold bind, client_put, put.
  rewrite (create_params_marshal (toLowerCase id) person Hs).
  unfold created_item at 1, key_name. rewrite lookup_insert_eq.
  by rewrite key_string_lower, Hne.
Qed.

(** Without a string id [createPerson] throws before it sends anything. *)
Lemma createPerson_no_id (person : Obj) (w : World) :
  (forall id, obj_get "ucinetid" person <> VStr id) ->
  createPerson table person w = (Rejected TypeError, w).
Proof.
  intros Hid. unfold createPerson, bind at 1.
  destruct (obj_get "ucinetid" person); try reflexivity.
  by destruct (Hid s).
Qed.

End Create.

(* ===================================================================== *)
(** ** The small directory *)
(* ===================================================================== *)

Lemma abc_world_tbl : tbl abc_world = {[ "abc123" := abc_item ]}.
Proof.
  unfold abc_world.
  rewrite (createPerson_run edu_people "abc123" abc_person empty_world);
    [reflexivity | reflexivity | reflexivity |].
  unfold scalar_fields. repeat constructor.
Qed.

Lemma abc_item_services : has_services abc_item ∅.
Proof. reflexivity. Qed.

(* ===================================================================== *)
(** ** Keys and casing *)
(* ===================================================================== *)

Lemma lower_ascii_idem (c : ascii) : lower_ascii (lower_ascii c) = lower_ascii c.
Proof.
  destruct c as [[] [] [] [] [] [] [] []]; reflexivity.
Qed.

Lemma toLowerCase_idem (s : string) : toLowerCase (toLowerCase s) = toLowerCase s.
Proof.
  induction s as [|c s IH]; cbn; [done|]. by rewrite lower_ascii_idem, IH.
Qed.

(** [upsertPerson] on a person with a string id: the lookup goes to the
    lowercased id, then the branch runs on the person as given. *)
Lemma upsertPerson_string (table id : string) (person : Obj) (w : World) :
  obj_get "ucinetid" person = VStr id ->
  accepted (toLowerCase id) (tbl w) ->
  upsertPerson table person w
  = match tbl w !! toLowerCase id with
    | Some _ => updatePerson table person (sent (get_request table (toLowerCase id)) w)
    | None => createPerson table person (sent (get_request table (toLowerCase id)) w)
    end.
Proof.
  intros Hid Hk. unfold upsertPerson, bind at 1. rewrite Hid. cbn [lower_of ret].
  unfold bind at 1. rewrite findPerson_string by exact Hk.
  by destruct (tbl w !! toLowerCase id).
Qed.

(** C1, as the specification states it, fails for [find]: the person
    created as "abc123" is returned for "abc123" and not for "ABC123",
    because [findPerson] looks the id up exactly as it is given. *)
Lemma find_is_case_sensitive :
  fst (findPerson edu_people (VStr "abc123") abc_world) = Resolved (Some abc_item)
  /\ fst (findPerson edu_people (VStr "ABC123") abc_world) = Resolved None
  /\ fst (findPerson edu_people (VStr "ABC123") abc_world)
     <> fst (findPerson edu_people (VStr "abc123") abc_world).
Proof.
  rewrite !findPerson_string by accept_key. cbn [fst]. rewrite abc_world_tbl.
  rewrite lookup_singleton_eq, lookup_singleton_ne by discriminate.
  repeat split. discriminate.
Qed.

(** C1 (amended): for a person stored under the lowercase id [k] and any
    casing [id] of it ([id] a UCInetID: ASCII, not empty, at most 2048
    bytes), [setPermission] and [removePermission] behave as when called
    with [k] itself and send their lookup and their update with the key
    [k]; the lookup [upsertPerson] starts with goes to [k]; [findPerson]
    returns the record when given [k] and, for any string the service
    takes as a key value, looks up exactly that string. *)
Theorem lowercase_key_operations (table k id : string) (item : Item) (w : World) :
  netid id ->
  tbl w !! k = Some item ->
  toLowerCase id = k ->
  fst (findPerson table (VStr k) w) = Resolved (Some item)
  /\ (forall id', key_string id' = true ->
                  fst (findPerson table (VStr id') w) = Resolved (tbl w !! id'))
  /\ (forall permission,
        setPermission table id permission w = setPermission table k permission w
        /\ exists rest,
             log (snd (setPermission table id permission w))
             = log w ++ get_request table k
                        :: RUpdate (set_params table k permission) :: rest)
  /\ (forall service,
        removePermission table id service w = removePermission table k service w
        /\ exists rest,
             log (snd (removePermission table id service w))
             = log w ++ get_request table k
                        :: RUpdate (remove_params table k service) :: rest)
  /\ (forall person,
        obj_get "ucinetid" person = VStr id ->
        exists rest,
          log (snd (upsertPerson table person w))
          = log w ++ get_request table k :: rest).
Proof.
  intros [Hne _] Hitem Hk.
  assert (toLowerCase k = k) as Hkk by (by rewrite <- Hk, toLowerCase_idem).
  assert (key_string k = true) as Hkey by (by rewrite <- Hk, key_string_lower).
  split; [by rewrite findPerson_string, Hitem by accept_key|].
  split; [intros id' Hid'; by rewrite findPerson_string by accept_key|].
  split; [|split].
  - intros permission. split.
    + unfold setPermission. by rewrite Hk, Hkk.
    + unfold setPermission, bind.
      rewrite Hk, findPerson_string, Hitem by accept_key.
      unfold client_update.
      change (update _ (tbl (sent (get_request table k) w)))
        with (update (set_params table k permission) (tbl w)).
      destruct (update (set_params table k permission) (tbl w)) as [[d t]|].
      * rewrite findPerson_string by accept_key. unfold sent. cbn [snd tbl log].
        eexists. rewrite <- !app_assoc. reflexivity.
      * unfold sent. cbn [snd tbl log].
        eexists. rewrite <- !app_assoc. reflexivity.
  - intros service. split.
    + unfold removePermission. by rewrite Hk, Hkk.
    + unfold removePermission, bind.
      rewrite Hk, findPerson_string, Hitem by accept_key.
      unfold client_update.
      change (update _ (tbl (sent (get_request table k) w)))
        with (update (remove_params table k service) (tbl w)).
      destruct (update (remove_params table k service) (tbl w)) as [[d t]|].
      * rewrite findPerson_string by accept_key. unfold sent. cbn [snd tbl log].
        eexists. rewrite <- !app_assoc. reflexivity.
      * unfold sent. cbn [snd tbl log].
        eexists. rewrite <- !app_assoc. reflexivity.
  - intros person Hid.
    rewrite (upsertPerson_string table id person w Hid)
      by (rewrite Hk; accept_key).
    rewrite Hk, Hitem. unfold updatePerson, bind, client_update.
    match goal with |- context [update ?r ?t] => destruct (update r t) as [[d t']|] end.
    + unfold findPerson, client_get.
      match goal with |- context [get ?r ?t] => destruct (get r t) end;
        unfold sent; cbn [snd tbl log]; eexists;
        rewrite <- !app_assoc; reflexivity.
    + unfold sent. cbn [snd tbl log]. eexists.
      rewrite <- !app_assoc. reflexivity.
Qed.

Lemma lowercase_key_operations_witness :
  fst (findPerson edu_people (VStr "abc123") abc_world) = Resolved (Some abc_item)
  /\ setPermission edu_people "ABC123" svc1_permission abc_world
     = setPermission edu_people "abc123" svc1_permission abc_world.
Proof.
  destruct (lowercase_key_operations edu_people "abc123" "ABC123" abc_item abc_world)
    as (Hfind & _ & Hset & _).
  - split; reflexivity.
  - vm_compute. reflexivity.
  - reflexivity.
  - split; [exact Hfind | apply Hset].
Defined.

(** The update [upsertPerson] reaches is not among them: [updatePerson]
    sends the id as the caller spelled it, so an upsert of "ABC123" finds
    the person stored as "abc123" and then writes a second item under
    "ABC123", leaving the stored person as it was. *)
Lemma upsert_update_keeps_casing :
  let person := [("ucinetid", VStr "ABC123"); ("lastName", VStr "King")] in
  let w := snd (upsertPerson edu_people person abc_world) in
  tbl w !! "abc123" = Some abc_item
  /\ tbl w !! "ABC123" = Some {[ "ucinetid" := AS "ABC123"; "lastName" := AS "King" ]}.
Proof. vm_compute. split; reflexivity. Qed.

(* ===================================================================== *)
(** ** upsertPerson *)
(* ===================================================================== *)



(* ===================================================================== *)
(** ** setPermission and removePermission *)
(* ===================================================================== *)



(** With an id the service does not take as a key value (the empty
    string, say) the lookup itself is rejected by the service, so the
    error is not the one of a missing person. *)
Lemma permission_for_refused_id (table id s : string) (permission : Obj)
    (w : World) :
  key_string id = false ->
  tbl w !! toLowerCase id = None ->
  fst (setPermission table id permission w) = Rejected ValidationException
  /\ fst (removePermission table id s w) = Rejected ValidationException.
Proof.
  intros Hid Hnone. unfold setPermission, removePermission, bind.
  by rewrite findPerson_refused by (by rewrite ?key_string_lower).
Qed.

(** C7, as the specification states it, fails: a person can exist without
    a services map, since [updatePerson] creates the record when the id is
    new, and for such a person [removePermission] is rejected by the
    service, which finds no map to remove the key from. *)
Lemma removePermission_needs_services_map :
  (exists item,
     fst (findPerson edu_people (VStr "new1") new1_world) = Resolved (Some item)
     /\ item !! "_services" = None)
  /\ fst (removePermission edu_people "new1" "svc1" new1_world)
     = Rejected ValidationException
  /\ forall item,
       fst (removePermission edu_people "new1" "svc1" new1_world)
       <> Resolved item.
Proof.
  assert (fst (removePermission edu_people "new1" "svc1" new1_world)
          = Rejected ValidationException) as H by (vm_compute; reflexivity).
  split; [|split; [exact H|]].
  - eexists. split; vm_compute; reflexivity.
  - intros item. rewrite H. discriminate.
Qed.

(** C7 (amended): for a stored person whose services map is present (the
    id a UCInetID, the service name not empty), [removePermission]
    resolves with the record read back, whose services map lacks the key
    and is otherwise as before; when the key was not there the record and
    the table are unchanged and the call still resolves; and calling it a
    second time resolves again, with the same record. *)
Theorem removePermission_succeeds (table id s : string) (item m : Item) (w : World) :
  netid id ->
  s <> "" ->
  tbl w !! toLowerCase id = Some item ->
  has_services item m ->
  exists (item' m' : Item) (w' : World),
    removePermission table id s w = (Resolved (Some item'), w')
    /\ tbl w' !! toLowerCase id = Some item'
    /\ has_services item' m'
    /\ m' !! s = None
    /\ (forall s', s' <> s -> m' !! s' = m !! s')
    /\ (m !! s = None -> item' = item /\ tbl w' = tbl w)
    /\ exists w'',
         removePermission table id s w' = (Resolved (Some item'), w'')
         /\ tbl w'' = tbl w'.
Proof.
  intros _ _ Hitem Hm.
  set (item' := <["_services" := AM (delete s m)]> item).
  pose proof (removePermission_run table id s m item w Hitem Hm) as Hrun.
  cbv zeta in Hrun. fold item' in Hrun.
  eexists item', (delete s m), _. split; [exact Hrun|]. cbn [tbl].
  assert (has_services item' (delete s m)) as Hm'
    by (unfold has_services, item'; apply lookup_insert_eq).
  split; [apply lookup_insert_eq|]. split; [exact Hm'|].
  split; [apply lookup_delete_eq|].
  split; [intros s' Hne; by apply lookup_delete_ne|].
  split.
  - intros Hnone. unfold item'. rewrite (delete_id _ _ Hnone).
    rewrite (insert_id item "_services" (AM m)) by exact Hm.
    split; [reflexivity | by apply insert_id].
  - eexists. split.
    + erewrite removePermission_run; [| cbn [tbl]; apply lookup_insert_eq | exact Hm'].
      cbv zeta. cbn [tbl]. unfold item' at 1.
      rewrite delete_delete_eq, insert_insert_eq. fold item'. reflexivity.
    + cbn [tbl]. unfold item'. by rewrite !insert_insert_eq.
Qed.

Lemma removePermission_succeeds_witness :
  exists (item' m' : Item) (w' : World),
    removePermission edu_people "ABC123" "svc1" abc_world
    = (Resolved (Some item'), w')
    /\ m' !! "svc1" = None
    /\ exists w'',
         removePermission edu_people "ABC123" "svc1" w'
         = (Resolved (Some item'), w'').
Proof.
  destruct (removePermission_succeeds edu_people "ABC123" "svc1" abc_item ∅
              abc_world)
    as (item' & m' & w' & Hrun & _ & _ & Hgone & _ & _ & w'' & Hagain & _).
  - split; reflexivity.
  - discriminate.
  - vm_compute. reflexivity.
  - reflexivity.
  - exists item', m', w'. split; [exact Hrun|]. split; [exact Hgone|].
    exists w''. exact Hagain.
Defined.

(** A property that marshals is in the map that is sent. *)
Lemma marshal_obj_lookup (o : Obj) (m : Item) (f : string) (a : Attr) :
  marshal_obj o = Some m ->
  marshal (obj_get f o) = WOk a ->
  m !! f = Some a.
Proof.
  revert m. induction o as [|[k x] o IH]; intros m Ho Hf.
  - discriminate Hf.
  - rewrite marshal_obj_cons in Ho. cbn [obj_get] in Hf.
    destruct (marshal_obj o) as [m0|]; [|discriminate].
    destruct (String.eqb_spec k f) as [->|Hne].
    + rewrite Hf in Ho. injection Ho as <-. apply lookup_insert_eq.
    + specialize (IH m0 eq_refl Hf).
      destruct (marshal x); try discriminate; injection Ho as <-;
        [exact IH | by rewrite lookup_insert_ne].
Qed.

(** C5, as the specification states its example, fails: after
    [setPermission(id, {service:"svc1", roles:["admin"], settings:{a:1}})]
    the entry stored under "svc1" is the whole permission object, its
    [service] field included, and not [{roles:["admin"], settings:{a:1}}]. *)
Lemma stored_permission_has_service :
  exists item m,
    fst (setPermission edu_people "abc123" svc1_permission abc_world)
    = Resolved (Some item)
    /\ has_services item m
    /\ m !! "svc1"
       = Some (AM {[ "service" := AS "svc1"; "roles" := AL [AS "admin"];
                     "settings" := AM {[ "a" := AN 1 ]} ]})
    /\ m !! "svc1"
       <> Some (AM {[ "roles" := AL [AS "admin"];
                      "settings" := AM {[ "a" := AN 1 ]} ]}).
Proof.
  eexists _, _. split; [|split; [|split]].
  - erewrite setPermission_run;
      [reflexivity | by rewrite abc_world_tbl, lookup_singleton_eq
       | exact abc_item_services | reflexivity | reflexivity].
  - apply lookup_insert_eq.
  - rewrite lookup_insert_eq. reflexivity.
  - rewrite lookup_insert_eq. intros H.
    apply (f_equal (fun o : option Attr =>
                      match o with
                      | Some (AM x) => x !! "service"
                      | _ => None
                      end)) in H.
    vm_compute in H. discriminate H.
Qed.

(** C5 (amended): for a stored person (the id a UCInetID) whose services
    map is present and a permission object that the service can store,
    with a service name [s] that is a string and not empty,
    [setPermission] resolves with the record read back, in which
    the entry [s] of the services map is the whole permission object as
    given (its [service] field included), replacing any previous entry;
    every other service, every other attribute of the person and every
    other person are unchanged. A later [setPermission] for another
    service leaves the entry [s] as it is. *)
Theorem setPermission_replaces_entry (table id s : string) (permission : Obj)
    (pm item m : Item) (w : World) :
  netid id ->
  tbl w !! toLowerCase id = Some item ->
  has_services item m ->
  obj_get "service" permission = VStr s ->
  s <> "" ->
  marshal_obj permission = Some pm ->
  exists (item' m' : Item) (w' : World),
    setPermission table id permission w = (Resolved (Some item'), w')
    /\ tbl w' !! toLowerCase id = Some item'
    /\ has_services item' m'
    /\ m' !! s = Some (AM pm)
    /\ pm !! "service" = Some (AS s)
    /\ (forall s', s' <> s -> m' !! s' = m !! s')
    /\ (forall f, f <> "_services" -> item' !! f = item !! f)
    /\ (forall k, k <> toLowerCase id -> tbl w' !! k = tbl w !! k)
    /\ (forall s2 permission2 pm2,
          s2 <> s ->
          obj_get "service" permission2 = VStr s2 ->
          s2 <> "" ->
          marshal_obj permission2 = Some pm2 ->
          exists item'' m'' w'',
            setPermission table id permission2 w'
            = (Resolved (Some item''), w'')
            /\ has_services item'' m''
            /\ m'' !! s = Some (AM pm)
            /\ m'' !! s2 = Some (AM pm2)).
Proof.
  intros _ Hitem Hm Hs _ Hpm.
  set (m' := <[s := AM pm]> m).
  set (item' := <["_services" := AM m']> item).
  pose proof (setPermission_run table id s permission pm m item w
                Hitem Hm Hs Hpm) as Hrun.
  cbv zeta in Hrun. fold m' item' in Hrun.
  assert (has_services item' m') as Hm'
    by (unfold has_services, item'; apply lookup_insert_eq).
  eexists item', m', _. split; [exact Hrun|]. cbn [tbl].
  split; [apply lookup_insert_eq|]. split; [exact Hm'|].
  split; [apply lookup_insert_eq|].
  split; [apply (marshal_obj_lookup permission); [exact Hpm | by rewrite Hs]|].
  split; [intros s' Hne; by apply lookup_insert_ne|].
  split; [intros f Hne; by apply lookup_insert_ne|].
  split; [intros k Hne; by apply lookup_insert_ne|].
  intros s2 permission2 pm2 Hne Hs2 _ Hpm2.
  eexists _, _, _. split; [|split; [|split]].
  - apply (setPermission_run table id s2 permission2 pm2 m' item');
      [cbn [tbl]; apply lookup_insert_eq | exact Hm' | exact Hs2 | exact Hpm2].
  - unfold has_services. apply lookup_insert_eq.
  - rewrite lookup_insert_ne by exact Hne. apply lookup_insert_eq.
  - apply lookup_insert_eq.
Qed.

Lemma setPermission_replaces_entry_witness :
  exists (item' m' : Item) (w' : World),
    setPermission edu_people "abc123" svc1_permission abc_world
    = (Resolved (Some item'), w')
    /\ has_services item' m'
    /\ m' !! "svc1"
       = Some (AM {[ "service" := AS "svc1"; "roles" := AL [AS "admin"];
                     "settings" := AM {[ "a" := AN 1 ]} ]}).
Proof.
  destruct (setPermission_replaces_entry edu_people "abc123" "svc1"
              svc1_permission
              {[ "service" := AS "svc1"; "roles" := AL [AS "admin"];
                 "settings" := AM {[ "a" := AN 1 ]} ]}
              abc_item ∅ abc_world)
    as (item' & m' & w' & Hrun & _ & Hm' & Hentry & _).
  - split; reflexivity.
  - vm_compute. reflexivity.
  - reflexivity.
  - reflexivity.
  - discriminate.
  - vm_compute. reflexivity.
  - exists item', m', w'. split; [exact Hrun|]. split; [exact Hm' | exact Hentry].
Defined.

(* ===================================================================== *)
(** ** updatePerson without fields *)
(* ===================================================================== *)

(** With nothing to set the expression is ["set "], which the service
    rejects: the update fails and nothing is read back. *)
Lemma updatePerson_nothing_to_set (table : string) (person : Obj) (w : World) :
  updatable person = [] ->
  fst (updatePerson table person w) = Rejected ValidationException
  /\ tbl (snd (updatePerson table person w)) = tbl w.
Proof.
  intros Hnone. unfold updatePerson, bind, client_update, update_params.
  rewrite Hnone. cbn [map join].
  rewrite update_syntax_error by exact parse_set_nothing.
  split; reflexivity.
Qed.

(** C8 (the code departs from it): [updatePerson({ucinetid: "abc123"})] on
    the directory holding "abc123" is rejected with a ValidationException
    instead of resolving with the stored record; the table is unchanged. *)
Lemma update_only_id_is_rejected :
  updatable [("ucinetid", VStr "abc123")] = []
  /\ tbl abc_world !! "abc123" = Some abc_item
  /\ fst (updatePerson edu_people [("ucinetid", VStr "abc123")] abc_world)
     = Rejected ValidationException
  /\ fst (updatePerson edu_people [("ucinetid", VStr "abc123")] abc_world)
     <> Resolved (Some abc_item)
  /\ tbl (snd (updatePerson edu_people [("ucinetid", VStr "abc123")] abc_world))
     = tbl abc_world.
Proof.
  destruct (updatePerson_nothing_to_set edu_people [("ucinetid", VStr "abc123")]
              abc_world eq_refl) as [Hout Htbl].
  split; [reflexivity|].
  split; [by rewrite abc_world_tbl, lookup_singleton_eq|].
  split; [exact Hout|]. split; [by rewrite Hout | exact Htbl].
Qed.

(** The same for a person that only carries excluded pseudo-fields. *)
Lemma update_only_excluded_is_rejected :
  fst (updatePerson edu_people
         [("ucinetid", VStr "abc123"); ("service", VStr "svc1");
          ("services", VObj [])] abc_world)
  = Rejected ValidationException.
Proof. by apply updatePerson_nothing_to_set. Qed.

(* ===================================================================== *)
(** ** createPerson *)
(* ===================================================================== *)

Ltac through_fields :=
  repeat first
    [ rewrite lookup_insert_ne by congruence
    | rewrite lookup_with_field_ne by congruence
    | rewrite lookup_with_optional_ne by congruence ].

Lemma lookup_with_optional_string (f : string) (v : Val) (m : Item) :
  optional_string v = true ->
  m !! f = None ->
  with_optional f v m !! f = supplied v.
Proof.
  intros Hv Hm. unfold with_optional, with_field, supplied.
  destruct v; try discriminate; cbn [truthy marshal]; try exact Hm.
  destruct (String.eqb s ""); cbn [negb]; [exact Hm | apply lookup_insert_eq].
Qed.

Lemma with_field_string (f s : string) (m : Item) :
  with_field f (VStr s) m = <[f := AS s]> m.
Proof. reflexivity. Qed.

Lemma lookup_with_field_undef (f : string) (v : Val) (m : Item) :
  v = VUndef -> m !! f = None -> with_field f v m !! f = None.
Proof. intros -> Hm. exact Hm. Qed.

Lemma valid_input_scalar (person : Obj) (id fn ln : string) :
  valid_creation_input person id fn ln -> scalar_fields person.
Proof.
  intros (_ & _ & Hfn & Hln & Hopt). rewrite !Forall_cons in Hopt.
  destruct Hopt as (He & Hm & Hp & _).
  assert (forall v, optional_string v = true -> scalar v = true) as Hsc
    by (intros []; done).
  unfold scalar_fields.
  repeat constructor; [by rewrite Hfn | by rewrite Hln | by apply Hsc ..].
Qed.

(** C4: for a valid creation input (the id a UCInetID: ASCII, not empty,
    at most 2048 bytes), [createPerson] resolves with the record it reads
    back after the put (the table then holds it under the lowercased id,
    and the request log shows the put followed by the get of that key).
    The record has the lowercased id, the two names, an empty services
    map, each of [email], [middleName] and [photo] exactly when a
    non-empty string was supplied for it, and nothing else. *)
Theorem createPerson_writes_record (table id fn ln : string) (person : Obj)
    (w : World) :
  valid_creation_input person id fn ln ->
  exists (item : Item) (w' : World) (sent_item : PutInput),
    createPerson table person w = (Resolved (Some item), w')
    /\ tbl w' = <[toLowerCase id := item]> (tbl w)
    /\ log w' = log w ++ [RPut sent_item; get_request table (toLowerCase id)]
    /\ fst (findPerson table (VStr (toLowerCase id)) w') = Resolved (Some item)
    /\ item !! "ucinetid" = Some (AS (toLowerCase id))
    /\ item !! "firstName" = Some (AS fn)
    /\ item !! "lastName" = Some (AS ln)
    /\ item !! "_services" = Some (AM ∅)
    /\ (forall f, f ∈ ["email"; "middleName"; "photo"] ->
                  item !! f = supplied (obj_get f person))
    /\ (forall f, f ∉ ["ucinetid"; "firstName"; "lastName"; "email";
                       "middleName"; "photo"; "_services"] ->
                  item !! f = None).
Proof.
  intros Hvalid. pose proof (valid_input_scalar _ _ _ _ Hvalid) as Hscalar.
  destruct Hvalid as (Hid & [Hne _] & Hfn & Hln & Hopt).
  rewrite !Forall_cons in Hopt. destruct Hopt as (He & Hm & Hp & _).
  eexists _, _, _.
  split; [exact (createPerson_run table id person w Hid Hne Hscalar)|].
  cbn [tbl log]. split; [reflexivity|]. split; [reflexivity|].
  split; [rewrite findPerson_string by accept_key; cbn [fst tbl];
          by rewrite lookup_insert_eq|].
  unfold created_item. rewrite Hfn, Hln, !with_field_string.
  split; [apply lookup_insert_eq|].
  split; [through_fields; apply lookup_insert_eq|].
  split; [through_fields; apply lookup_insert_eq|].
  split; [through_fields; apply lookup_insert_eq|].
  split.
  - intros f Hf. rewrite !elem_of_cons in Hf.
    destruct Hf as [->|[->|[->|Hf]]]; [| | |by apply elem_of_nil in Hf];
      through_fields; apply lookup_with_optional_string; try assumption;
      through_fields; reflexivity.
  - intros f Hf. rewrite !not_elem_of_cons in Hf.
    destruct Hf as (? & ? & ? & ? & ? & ? & ? & _).
    through_fields. apply lookup_empty.
Qed.

Lemma createPerson_writes_record_witness :
  exists (item : Item) (w' : World),
    createPerson edu_people full_person abc_world = (Resolved (Some item), w')
    /\ tbl w' !! "xyz9" = Some item
    /\ item !! "email" = Some (AS "grace@uci.edu")
    /\ item !! "middleName" = None
    /\ item !! "photo" = None
    /\ item !! "_services" = Some (AM ∅).
Proof.
  destruct (createPerson_writes_record edu_people "Xyz9" "Grace" "Hopper"
              full_person abc_world)
    as (item & w' & put & Hrun & Htbl & _ & _ & _ & _ & _ & Hs & Hopt & _).
  - unfold valid_creation_input, netid.
    repeat split. repeat constructor.
  - exists item, w'. split; [exact Hrun|].
    split; [rewrite Htbl; apply lookup_insert_eq|].
    split; [apply (Hopt "email"); repeat constructor|].
    split; [apply (Hopt "middleName"); repeat constructor|].
    split; [apply (Hopt "photo"); repeat constructor | exact Hs].
Defined.

(** C9, as the specification states it, fails: a person without
    [firstName] is created all the same, and the stored record has no
    [firstName]. *)
Lemma create_accepts_missing_firstName :
  obj_get "firstName" nameless_person = VUndef
  /\ exists item w',
       createPerson edu_people nameless_person empty_world
       = (Resolved (Some item), w')
       /\ tbl w' !! "abc123" = Some item
       /\ item !! "firstName" = None
       /\ item !! "lastName" = Some (AS "Byron").
Proof.
  split; [reflexivity|]. eexists _, _. split.
  - apply (createPerson_run edu_people "abc123" nameless_person empty_world);
      [reflexivity | reflexivity | unfold scalar_fields; repeat constructor].
  - cbn [tbl]. split; [apply lookup_insert_eq|]. split; reflexivity.
Qed.

(** C9 (amended): [createPerson] checks none of the required fields. For
    a person whose fields are scalars it fails when the id is not a
    string, with a TypeError raised before any request is sent, and when
    the id is a string the service refuses as a key value (the empty
    string, or one of more than 2048 bytes); in both cases nothing is
    written. With an id that is a UCInetID (ASCII, not empty, at most
    2048 bytes) it resolves and stores the record under the lowercased
    id, and a missing [firstName] or [lastName] is simply missing from the
    stored record. *)
Theorem createPerson_validates_nothing (table : string) (person : Obj) (w : World) :
  scalar_fields person ->
  match obj_get "ucinetid" person with
  | VStr id =>
      (key_string id = false ->
       fst (createPerson table person w) = Rejected ValidationException
       /\ tbl (snd (createPerson table person w)) = tbl w)
      /\ (netid id ->
          exists (item : Item) (w' : World),
            createPerson table person w = (Resolved (Some item), w')
            /\ tbl w' !! toLowerCase id = Some item
            /\ (obj_get "firstName" person = VUndef -> item !! "firstName" = None)
            /\ (obj_get "lastName" person = VUndef -> item !! "lastName" = None))
  | _ => createPerson table person w = (Rejected TypeError, w)
  end.
Proof.
  intros Hscalar.
  destruct (obj_get "ucinetid" person) as [| | | |id| |] eqn:Hid;
    try (apply createPerson_no_id; intros id'; rewrite Hid; discriminate).
  split.
  { intros Hno. by rewrite (createPerson_refused_id table id person w Hid Hno Hscalar). }
  intros [Hne _].
  eexists _, _.
  split; [exact (createPerson_run table id person w Hid Hne Hscalar)|].
  cbn [tbl]. split; [apply lookup_insert_eq|]. unfold created_item. split.
  - intros Hfn. through_fields. rewrite Hfn. unfold with_field at 1.
    cbn [marshal]. through_fields. reflexivity.
  - intros Hln. through_fields. rewrite Hln. unfold with_field at 1.
    cbn [marshal]. through_fields. reflexivity.
Qed.

Lemma createPerson_validates_nothing_witness :
  exists (item : Item) (w' : World),
    createPerson edu_people nameless_person empty_world
    = (Resolved (Some item), w')
    /\ tbl w' !! "abc123" = Some item
    /\ item !! "firstName" = None.
Proof.
  destruct (createPerson_validates_nothing edu_people nameless_person empty_world)
    as [_ Hcreate].
  - unfold scalar_fields. repeat constructor.
  - destruct Hcreate as (item & w' & Hrun & Htbl & Hfn & _).
    + split; reflexivity.
    + exists item, w'. split; [exact Hrun|]. split; [exact Htbl|].
      apply Hfn. reflexivity.
Defined.

(** Without an id nothing is sent at all. *)
Lemma create_without_id_throws :
  createPerson edu_people [("firstName", VStr "Ada"); ("lastName", VStr "Byron")]
    abc_world
  = (Rejected TypeError, abc_world).
Proof. apply createPerson_no_id. intros id. discriminate. Qed.

(* ===================================================================== *)
(** ** scanPeople *)
(* ===================================================================== *)





(** The table of [two_people] needs two pages at one item per page: with
    too few steps the promise is still pending, with enough it holds both
    persons for "all" and the one holder for "svc1". *)
Lemma scanPeople_pages :
  fst (scanPeople edu_people one_per_page 1 "all" no_options two_people) = Pending
  /\ (exists a b,
        fst (scanPeople edu_people one_per_page 2 "all" no_options two_people)
        = Resolved [a; b]
        /\ a <> b)
  /\ exists a,
       fst (scanPeople edu_people one_per_page 2 "svc1" no_options two_people)
       = Resolved [a]
       /\ a !! "ucinetid" = Some (AS "abc123").
Proof.
  split; [vm_compute; reflexivity|]. split.
  - eexists _, _. split; [vm_compute; reflexivity|].
    intros H. apply (f_equal (fun x : Item => x !! "ucinetid")) in H.
    vm_compute in H. discriminate H.
  - eexists. split; vm_compute; reflexivity.
Qed.

Lemma holds_service_bare (s : string) : holds_service s bare_item = false.
Proof. reflexivity. Qed.

Lemma holds_service_holder (s s' : string) :
  holds_service s' (holder_item s) = bool_decide (s = s').
Proof.
  unfold holds_service, holder_item. rewrite lookup_insert_eq.
  destruct (decide (s = s')) as [->|Hne].
  - rewrite lookup_singleton_eq, bool_decide_eq_true_2 by done.
    by rewrite bool_decide_eq_true_2.
  - rewrite lookup_singleton_ne by done.
    rewrite bool_decide_eq_false_2 by (by intros [? ?]).
    by rewrite bool_decide_eq_false_2.
Qed.

(** C10: a filter that is "all" in any casing makes [scanPeople] send
    scans without a filter and resolve with every stored person. Hence no
    argument selects the holders of a service that is itself named "all"
    in some casing: whatever string is passed, there is a table on which
    the result is not the list of those holders. *)
Theorem all_is_the_sentinel (table : string) (page_cap : option string -> nat)
    (name : string) :
  toLowerCase name = "all" ->
  (forall (w : World) (fuel : nat),
     size (tbl w) < fuel ->
     exists reqs,
       scanPeople table page_cap fuel name no_options w
       = (Resolved (people (tbl w)),
          {| tbl := tbl w; log := log w ++ map RScan reqs |})
       /\ Forall (fun r => scan_FilterExpression r = None) reqs)
  /\ (forall serviceFilter : string,
        exists w : World,
          forall fuel,
            size (tbl w) < fuel ->
            fst (scanPeople table page_cap fuel serviceFilter no_options w)
            <> Resolved (holders name (tbl w))).
Proof.
  intros Hall%test_all_spec. split.
  - intros w fuel Hfuel.
    destruct (scanPeople_result table page_cap fuel name w Hfuel)
      as (reqs & Hrun & _ & Hreqs).
    exists reqs. split.
    + rewrite Hrun. unfold selected. rewrite Hall. by rewrite filter_all.
    + eapply Forall_impl; [exact Hreqs|]. intros r [Hfe _].
      unfold filter_of in Hfe. by rewrite Hall in Hfe.
  - intros serviceFilter.
    destruct (test_all serviceFilter) eqn:Hsf.
    + exists {| tbl := {[ "p" := bare_item ]}; log := [] |}.
      intros fuel Hfuel.
      destruct (scanPeople_result table page_cap fuel serviceFilter _ Hfuel)
        as (reqs & Hrun & _). rewrite Hrun. cbn [fst tbl].
      unfold holders, people, selected. rewrite Hsf, map_to_list_singleton.
      cbn [map snd List.filter]. rewrite holds_service_bare. discriminate.
    + exists {| tbl := {[ "p" := holder_item name ]}; log := [] |}.
      intros fuel Hfuel.
      destruct (scanPeople_result table page_cap fuel serviceFilter _ Hfuel)
        as (reqs & Hrun & _). rewrite Hrun. cbn [fst tbl].
      unfold holders, people, selected. rewrite Hsf, map_to_list_singleton.
      cbn [map snd List.filter]. rewrite !holds_service_holder.
      rewrite (bool_decide_eq_true_2 (name = name)) by done.
      rewrite bool_decide_eq_false_2; [discriminate|].
      intros <-. congruence.
Qed.

Lemma all_is_the_sentinel_witness :
  exists reqs,
    scanPeople edu_people one_per_page 3 "ALL" no_options two_people
    = (Resolved (people (tbl two_people)),
       {| tbl := tbl two_people; log := log two_people ++ map RScan reqs |})
    /\ Forall (fun r => scan_FilterExpression r = None) reqs.
Proof.
  destruct (all_is_the_sentinel edu_people one_per_page "ALL") as [Hall _].
  - reflexivity.
  - apply (Hall two_people 3). vm_compute. lia.
Defined.

(* ===================================================================== *)
(** ** Reading the expression of updatePerson *)
(* ===================================================================== *)

Lemma append_cons (c : ascii) (a b : string) :
  String c a +:+ b = String c (a +:+ b).
Proof. reflexivity. Qed.

Lemma append_nil (b : string) : "" +:+ b = b.
Proof. reflexivity. Qed.

Lemma append_assoc' (a b c : string) : (a +:+ b) +:+ c = a +:+ (b +:+ c).
Proof.
  induction a as [|x a IH]; [reflexivity|].
  by rewrite !append_cons, IH.
Qed.

Lemma is_word_not_space (c : ascii) : is_word c = true -> is_space c = false.
Proof. destruct c as [[] [] [] [] [] [] [] []]; vm_compute; congruence. Qed.

(** A word in front of something that does not go on with a word is one
    identifier. *)
Lemma lex_word (w rest : string) (ts : list token) :
  w <> "" -> all_word w = true ->
  starts_word rest = false ->
  lex rest = Some ts ->
  lex (w +:+ rest) = Some (TIdent w :: ts).
Proof.
  intros Hne Hw Hrest Hlex. induction w as [|c w IH]; [done|].
  cbn [all_word] in Hw. apply andb_true_iff in Hw as [Hc Hw].
  rewrite append_cons. cbn [lex]. destruct w as [|c' w].
  - rewrite append_nil, Hlex, (is_word_not_space c Hc), Hc, Hrest.
    reflexivity.
  - rewrite IH by done. rewrite (is_word_not_space c Hc), Hc.
    assert (starts_word (String c' w +:+ rest) = true) as Hsw.
    { rewrite append_cons. cbn [starts_word all_word] in Hw |- *.
      by apply andb_true_iff in Hw as [-> _]. }
    unfold glue. rewrite !Hsw. reflexivity.
Qed.

Lemma lex_value (w rest : string) (ts : list token) :
  w <> "" -> all_word w = true ->
  starts_word rest = false ->
  lex rest = Some ts ->
  lex (":" +:+ w +:+ rest) = Some (TValue (":" +:+ w) :: ts).
Proof.
  intros Hne Hw Hrest Hlex.
  change (":" +:+ w +:+ rest) with (String ":" (w +:+ rest)).
  cbn [lex]. rewrite (lex_word w rest ts) by done.
  replace (is_space ":") with false by reflexivity.
  replace (is_word ":") with false by reflexivity.
  replace (Ascii.eqb ":" "#") with false by reflexivity.
  replace (Ascii.eqb ":" ":") with true by reflexivity.
  unfold glue. destruct w as [|c w]; [done|].
  cbn [all_word] in Hw. apply andb_true_iff in Hw as [Hc _].
  rewrite append_cons. cbn [starts_word]. rewrite Hc. reflexivity.
Qed.

Lemma lex_assignment (key rest : string) (ts : list token) :
  key <> "" -> all_word key = true ->
  starts_word rest = false ->
  lex rest = Some ts ->
  lex (assignment key +:+ rest) = Some (assignment_tokens key ++ ts).
Proof.
  intros Hne Hw Hrest Hlex. unfold assignment.
  rewrite !append_assoc'.
  apply lex_word; [done | done | reflexivity |].
  change (" = :" +:+ key +:+ rest) with (String " " (String "=" (String " "
    (":" +:+ key +:+ rest)))).
  cbn [lex]. rewrite (lex_value key rest ts) by done. reflexivity.
Qed.

Lemma append_empty (s : string) : s +:+ "" = s.
Proof. induction s as [|c s IH]; [done | by rewrite append_cons, IH]. Qed.

Lemma plain_name_word (n : string) :
  plain_name n = true ->
  n <> "" /\ all_word n = true /\ starts_alpha n = true
  /\ keyword_of (TIdent n) = None /\ reserved_word n = false.
Proof.
  unfold plain_name. rewrite !andb_true_iff. intros [[[Ha Hw] Hr] Hk].
  split; [by destruct n|]. split; [done|]. split; [done|].
  split; [by destruct (keyword_of (TIdent n)) | by apply negb_true_iff].
Qed.

(** The profile fields are plain names. *)
Lemma profile_field_plain (n : string) :
  n ∈ profile_fields -> plain_name n = true.
Proof.
  unfold profile_fields. rewrite !elem_of_cons, elem_of_nil.
  intros [->|[->|[->|[->|[->|[]]]]]]; vm_compute; reflexivity.
Qed.

Lemma profile_fields_plain (names : list string) :
  Forall (fun n => n ∈ profile_fields) names ->
  Forall (fun n => plain_name n = true) names.
Proof. intros H. eapply Forall_impl; [exact H | exact profile_field_plain]. Qed.

Lemma lex_assignments (keys : list string) :
  keys <> [] ->
  Forall (fun k => plain_name k = true) keys ->
  lex (join ", " (map assignment keys)) = Some (assignments_tokens keys).
Proof.
  induction keys as [|key keys IH]; [done|]. intros _ Hall.
  apply Forall_cons in Hall as [Hkey Hall].
  apply plain_name_word in Hkey as (Hne & Hw & _ & _ & _).
  destruct keys as [|key' keys].
  - cbn [map join assignments_tokens].
    rewrite <- (append_empty (assignment key)).
    rewrite (lex_assignment key "" []) by done. by rewrite app_nil_r.
  - change (join ", " (map assignment (key :: key' :: keys)))
      with (assignment key +:+ ", " +:+ join ", " (map assignment (key' :: keys))).
    change (assignments_tokens (key :: key' :: keys))
      with (assignment_tokens key ++ TComma :: assignments_tokens (key' :: keys)).
    apply lex_assignment; [done | done | reflexivity |].
    change (", " +:+ ?r) with (String "," (String " " r)).
    cbn [lex]. rewrite IH by done.
    reflexivity.
Qed.

Lemma lex_set (keys : list string) :
  keys <> [] ->
  Forall (fun k => plain_name k = true) keys ->
  lex ("set " +:+ join ", " (map assignment keys))
  = Some (TIdent "set" :: assignments_tokens keys).
Proof.
  intros Hne Hall.
  change ("set " +:+ ?r) with ("set" +:+ (" " +:+ r)).
  apply lex_word; [done | reflexivity | reflexivity |].
  rewrite append_cons, append_nil. cbn [lex].
  by rewrite lex_assignments.
Qed.

Lemma no_keyword_assignments (keys : list string) :
  Forall (fun k => plain_name k = true) keys ->
  Forall (fun t => keyword_of t = None) (assignments_tokens keys).
Proof.
  induction keys as [|key keys IH]; intros Hall; [constructor|].
  apply Forall_cons in Hall as [Hkey Hall].
  apply plain_name_word in Hkey as (_ & _ & _ & Hk & _).
  destruct keys as [|key' keys].
  - cbn [assignments_tokens assignment_tokens]. repeat constructor. exact Hk.
  - change (assignments_tokens (key :: key' :: keys))
      with (assignment_tokens key ++ TComma :: assignments_tokens (key' :: keys)).
    apply Forall_app. split; [repeat constructor; exact Hk|].
    constructor; [reflexivity | by apply IH].
Qed.

Lemma split_clauses_no_keyword (ts : list token) :
  Forall (fun t => keyword_of t = None) ts -> split_clauses ts = (ts, []).
Proof.
  induction ts as [|t ts IH]; intros Hall; [reflexivity|].
  apply Forall_cons in Hall as [Ht Hall]. cbn [split_clauses].
  by rewrite IH, Ht.
Qed.

Lemma split_commas_assignments (keys : list string) :
  keys <> [] ->
  split_commas (assignments_tokens keys) = map assignment_tokens keys.
Proof.
  induction keys as [|key keys IH]; [done|]. intros _.
  destruct keys as [|key' keys]; [reflexivity|].
  change (assignments_tokens (key :: key' :: keys))
    with (assignment_tokens key ++ TComma :: assignments_tokens (key' :: keys)).
  cbn [assignment_tokens app split_commas]. by rewrite IH.
Qed.

Lemma all_some_map {A B} (f : A -> option B) (g : A -> B) (l : list A) :
  (forall x, x ∈ l -> f x = Some (g x)) ->
  all_some (map f l) = Some (map g l).
Proof.
  induction l as [|x l IH]; intros H; [reflexivity|]. cbn [map all_some].
  rewrite (H x) by (by left). rewrite IH; [reflexivity|].
  intros y Hy. apply H. by right.
Qed.

(** The expression [updatePerson] builds from plain names is read as one
    assignment per name. *)
Lemma parse_update_set (keys : list string) :
  keys <> [] ->
  Forall (fun k => plain_name k = true) keys ->
  parse_update ("set " +:+ join ", " (map assignment keys))
  = Some (map raw_assignment keys).
Proof.
  intros Hne Hall. unfold parse_update. rewrite lex_set by done.
  cbn [split_clauses].
  rewrite (split_clauses_no_keyword _ (no_keyword_assignments keys Hall)).
  replace (keyword_of (TIdent "set")) with (Some KSet) by reflexivity.
  cbn [map fst]. rewrite decide_True by (repeat constructor; set_solver).
  unfold parse_clause. cbn [fst snd map all_some].
  rewrite split_commas_assignments by done.
  rewrite map_map.
  rewrite (all_some_map _ raw_assignment); [|reflexivity].
  cbn [concat]. by rewrite app_nil_r.
Qed.

(* ===================================================================== *)
(** ** Running updatePerson *)
(* ===================================================================== *)

Lemma includes_elem_of (l : list string) (x : string) :
  includes l x = true <-> x ∈ l.
Proof.
  unfold includes. rewrite existsb_exists, list_elem_of_In. split.
  - intros (y & Hy & Heq). apply String.eqb_eq in Heq. by subst.
  - intros Hx. exists x. split; [done | apply String.eqb_refl].
Qed.

Lemma updatable_spec (person : Obj) (n : string) :
  n ∈ updatable person
  <-> n ∈ getOwnPropertyNames person /\ n ∉ not_updated.
Proof.
  unfold updatable.
  rewrite list_elem_of_In, List.filter_In, <- list_elem_of_In, negb_true_iff.
  split; intros [Hown Hnot]; (split; [done|]).
  - intros Hin%includes_elem_of. congruence.
  - destruct (includes not_updated n) eqn:E; [|done].
    by apply includes_elem_of in E.
Qed.

Lemma colon_inj (a b : string) : ":" +:+ a = ":" +:+ b -> a = b.
Proof. intros H. by injection H. Qed.

Lemma sent_values_lookup (person : Obj) (names : list string) (n : string) :
  n ∈ names ->
  storable_fields person names ->
  sent_values person names !! (":" +:+ n) = stored (obj_get n person).
Proof.
  induction names as [|n' names IH]; intros Hin Hall.
  - by apply elem_of_nil in Hin.
  - apply Forall_cons in Hall as [[a Ha] Hall]. cbn [sent_values foldr].
    rewrite Ha. destruct (decide (n' = n)) as [->|Hne].
    + by rewrite lookup_insert_eq.
    + rewrite lookup_insert_ne by (intros H; by apply colon_inj in H).
      apply elem_of_cons in Hin as [->|Hin]; [done|]. by apply IH.
Qed.

Lemma sent_values_keys (person : Obj) (names : list string) (k : string) :
  is_Some (sent_values person names !! k) ->
  exists n, n ∈ names /\ k = ":" +:+ n.
Proof.
  induction names as [|n names IH]; cbn [sent_values foldr].
  - rewrite lookup_empty. by intros [? ?].
  - intros Hk. destruct (stored (obj_get n person)) as [a|].
    + destruct (decide (":" +:+ n = k)) as [<-|Hne].
      * exists n. split; [by left | done].
      * rewrite lookup_insert_ne in Hk by done.
        destruct (IH Hk) as (n' & Hn' & ->). exists n'. split; [by right | done].
    + destruct (IH Hk) as (n' & Hn' & ->). exists n'. split; [by right | done].
Qed.

Lemma sent_values_marshal (person : Obj) (names : list string) :
  storable_fields person names ->
  marshal_obj (map (fun key => (":" +:+ key, obj_get key person)) names)
  = Some (sent_values person names).
Proof.
  induction names as [|n names IH]; intros Hall; [reflexivity|].
  apply Forall_cons in Hall as [[a Ha] Hall]. cbn [map sent_values foldr].
  rewrite marshal_obj_cons, IH by done. rewrite Ha.
  unfold stored in Ha. by destruct (marshal (obj_get n person)); simplify_eq.
Qed.

Lemma set_fields_lookup (person : Obj) (names : list string) (item : Item)
    (f : string) :
  storable_fields person names ->
  set_fields person names item !! f
  = if bool_decide (f ∈ names) then stored (obj_get f person) else item !! f.
Proof.
  revert item. induction names as [|n names IH]; intros item Hall.
  - cbn [set_fields foldl]. by rewrite bool_decide_eq_false_2 by apply not_elem_of_nil.
  - apply Forall_cons in Hall as [[a Ha] Hall]. unfold set_fields in *.
    cbn [foldl]. rewrite Ha, IH by done.
    destruct (decide (f ∈ names)) as [Hin|Hnin].
    + rewrite !bool_decide_eq_true_2; [done | by right | done].
    + rewrite (bool_decide_eq_false_2 (f ∈ names)) by done.
      destruct (decide (f = n)) as [->|Hne].
      * rewrite bool_decide_eq_true_2 by (by left).
        by rewrite lookup_insert_eq.
      * rewrite bool_decide_eq_false_2, lookup_insert_ne; [done | done |].
        by intros [->|?]%elem_of_cons.
Qed.

Lemma no_overlap_singletons (names : list string) :
  NoDup names -> no_overlap (map (fun n => [n]) names) = true.
Proof.
  induction names as [|n names IH]; intros Hnd; [reflexivity|].
  apply NoDup_cons in Hnd as [Hn Hnd]. cbn [map no_overlap].
  rewrite IH by done. rewrite andb_true_r.
  apply forallb_forall. intros q Hq%list_elem_of_In.
  apply list_elem_of_fmap in Hq as (n' & -> & Hn').
  unfold overlap. cbn [is_prefix]. rewrite !andb_true_r.
  assert (n <> n') as Hne by (by intros ->).
  apply negb_true_iff, orb_false_iff.
  split; apply String.eqb_neq; congruence.
Qed.

Lemma apply_assignments (person : Obj) (names : list string) (item : Item) :
  apply_actions
    (map (fun n => Assign [n] (default ANull (stored (obj_get n person)))) names)
    item
  = Some (foldl (fun m n => <[n := default ANull (stored (obj_get n person))]> m)
            item names).
Proof.
  revert item. induction names as [|n names IH]; intros item; [reflexivity|].
  cbn [map apply_actions apply_action set_path foldl]. apply IH.
Qed.

Lemma set_fields_storable (person : Obj) (names : list string) (item : Item) :
  storable_fields person names ->
  foldl (fun m n => <[n := default ANull (stored (obj_get n person))]> m)
    item names
  = set_fields person names item.
Proof.
  revert item. induction names as [|n names IH]; intros item Hall; [reflexivity|].
  apply Forall_cons in Hall as [[a Ha] Hall]. unfold set_fields in *.
  cbn [foldl]. rewrite Ha. cbn [default from_option Datatypes.id]. by apply IH.
Qed.

(** The update [updatePerson] sends for an updatable person sets the
    fields in the item under the id as given, or in a new item. *)
Lemma update_update_params (table id : string) (person : Obj) (t : Table) :
  updatable_person person id ->
  let item' := set_fields person (updatable person) (base_item t id) in
  update (update_params table person) t = Some (Some item', <[id := item']> t).
Proof.
  intros (Hid & Hkey & Hne & Hnd & Hplain%profile_fields_plain & Hstor) item'.
  unfold update, update_params.
  cbn [upd_Key upd_UpdateExpression upd_ExpressionAttributeNames
       upd_ExpressionAttributeValues upd_ReturnValues default from_option
       Datatypes.id].
  rewrite Hid, key_of_string, refused_accepted by accept_key. cbn [negb andb].
  change (map (fun key => key +:+ " = :" +:+ key) (updatable person))
    with (map assignment (updatable person)).
  rewrite parse_update_set by done.
  rewrite sent_values_marshal by done.
  replace (names_ok None _) with true by reflexivity.
  assert (values_ok (sent_values person (updatable person))
            (bool_decide (is_Some (Some
               (map (fun key => (":" +:+ key, obj_get key person))
                  (updatable person)))))
            (concat (map raw_values (map raw_assignment (updatable person))))
          = true) as ->.
  { rewrite bool_decide_eq_true_2 by eauto. unfold values_ok.
    apply andb_true_iff. split.
    - apply negb_true_iff, bool_decide_eq_false_2. intros Hempty.
      destruct (updatable person) as [|n names] eqn:Hnames; [done|].
      pose proof (sent_values_lookup person (n :: names) n
                    ltac:(by left) Hstor) as Hl.
      rewrite Hempty, lookup_empty in Hl.
      apply Forall_cons in Hstor as [[a Ha] _]. rewrite Ha in Hl.
      discriminate Hl.
    - apply forallb_forall. intros k Hk%list_elem_of_In.
      apply list_elem_of_fmap in Hk as ([k' a] & -> & Hk).
      apply elem_of_map_to_list in Hk. cbn [fst].
      destruct (sent_values_keys person (updatable person) k') as (n & Hn & ->);
        [eauto|].
      apply includes_elem_of, list_elem_of_In, in_concat.
      exists [":" +:+ n]. split; [|by left].
      rewrite map_map. apply in_map_iff. exists n. split; [done|].
      by apply list_elem_of_In. }
  cbn [andb]. rewrite map_map.
  rewrite (all_some_map _
             (fun n => Assign [n] (default ANull (stored (obj_get n person))))).
  2:{ intros n Hn. unfold raw_assignment, resolve_action, resolve_path.
      cbn [map all_some resolve_elem].
      rewrite Forall_forall in Hplain.
      destruct (plain_name_word n (Hplain n Hn)) as (_ & _ & Ha & _ & Hr).
      rewrite Hr.
      destruct n as [|c n]; [done|]. cbn [starts_alpha] in Ha. rewrite Ha.
      cbn [negb andb].
      rewrite sent_values_lookup by done.
      pose proof Hstor as Hstor'. unfold storable_fields in Hstor'.
      rewrite Forall_forall in Hstor'. destruct (Hstor' _ Hn) as [a ->].
      reflexivity. }
  rewrite map_map. cbn [action_path].
  rewrite no_overlap_singletons by done. rewrite andb_true_r.
  assert (forallb (fun a => negb (touches_key (action_path a)))
            (map (fun n => Assign [n] (default ANull (stored (obj_get n person))))
               (updatable person)) = true) as ->.
  { apply forallb_forall. intros a Ha%list_elem_of_In.
    apply list_elem_of_fmap in Ha as (n & -> & Hn).
    cbn [action_path touches_key]. apply negb_true_iff, String.eqb_neq.
    apply updatable_spec in Hn as [_ Hn]. intros ->. apply Hn.
    unfold not_updated, key_name. by left. }
  rewrite apply_assignments, set_fields_storable by done.
  reflexivity.
Qed.

(** [updatePerson] for an updatable person: one update, one lookup, both
    under the id as the person spells it. *)
Lemma updatePerson_run (table id : string) (person : Obj) (w : World) :
  updatable_person person id ->
  let item' := set_fields person (updatable person) (base_item (tbl w) id) in
  updatePerson table person w
  = (Resolved (Some item'),
     {| tbl := <[id := item']> (tbl w);
        log := log w ++ [RUpdate (update_params table person);
                         get_request table id] |}).
Proof.
  intros Hp item'. unfold updatePerson, bind, client_update.
  rewrite (update_update_params table id person (tbl w) Hp).
  destruct Hp as (Hid & Hkey & _). rewrite Hid, findPerson_string by accept_key.
  unfold sent. cbn [tbl log]. rewrite lookup_insert_eq, <- !app_assoc.
  reflexivity.
Qed.

(** X1: for a partial person that carries a string id the service takes
    as a key value and at least one field to set, the fields among the
    profile fields and with storable values, [updatePerson] resolves with
    the record read back. In it every provided field holds the value given
    (whatever it is: an empty string or null is stored as such) and every
    other attribute, the services map included, is as it was; the
    properties [ucinetid], [service], [services] and [_services] of the
    argument are not written. The record is the one under the id as the
    argument spells it; no other record changes. *)
Theorem updatePerson_merges (table id : string) (person : Obj) (w : World) :
  updatable_person person id ->
  exists (item' : Item) (w' : World),
    updatePerson table person w = (Resolved (Some item'), w')
    /\ tbl w' !! id = Some item'
    /\ (forall n, n ∈ updatable person ->
                  item' !! n = stored (obj_get n person))
    /\ (forall f, f ∉ updatable person ->
                  item' !! f = base_item (tbl w) id !! f)
    /\ (forall f, f ∈ not_updated ->
                  item' !! f = base_item (tbl w) id !! f)
    /\ (forall k, k <> id -> tbl w' !! k = tbl w !! k).
Proof.
  intros Hp. eexists _, _. split; [exact (updatePerson_run table id person w Hp)|].
  destruct Hp as (_ & _ & _ & _ & _ & Hstor). cbn [tbl].
  split; [apply lookup_insert_eq|]. split; [|split; [|split]].
  - intros n Hn. rewrite set_fields_lookup by done.
    by rewrite bool_decide_eq_true_2.
  - intros f Hf. rewrite set_fields_lookup by done.
    by rewrite bool_decide_eq_false_2.
  - intros f Hf. rewrite set_fields_lookup by done.
    rewrite bool_decide_eq_false_2; [done|].
    intros [_ Hnot]%updatable_spec. done.
  - intros k Hk. by rewrite lookup_insert_ne.
Qed.

Lemma updatePerson_merges_witness :
  exists (item' : Item) (w' : World),
    updatePerson edu_people abc_update abc_world = (Resolved (Some item'), w')
    /\ item' !! "lastName" = Some (AS "King")
    /\ item' !! "email" = Some (AS "")
    /\ item' !! "firstName" = Some (AS "Ada")
    /\ item' !! "_services" = Some (AM ∅).
Proof.
  destruct (updatePerson_merges edu_people "abc123" abc_update abc_world)
    as (item' & w' & Hrun & _ & Hset & Hkeep & _).
  - unfold updatable_person, storable_fields.
    split; [reflexivity|]. split; [reflexivity|]. split; [discriminate|].
    split; [compute_done|].
    split; repeat constructor; eauto; compute_done.
  - exists item', w'. split; [exact Hrun|].
    split; [apply (Hset "lastName"); compute_done|].
    split; [apply (Hset "email"); compute_done|].
    split.
    + rewrite (Hkeep "firstName") by compute_done.
      unfold base_item. rewrite abc_world_tbl, lookup_singleton_eq. reflexivity.
    + rewrite (Hkeep "_services") by compute_done.
      unfold base_item. rewrite abc_world_tbl, lookup_singleton_eq. reflexivity.
Defined.

(* ===================================================================== *)
(** ** Lookups leave the table alone *)
(* ===================================================================== *)

Lemma findPerson_keeps_table (table : string) (v : Val) (w : World) :
  tbl (snd (findPerson table v w)) = tbl w.
Proof.
  unfold findPerson, client_get. by destruct (get _ _).
Qed.

(* ===================================================================== *)
(** ** What the permission updates need *)
(* ===================================================================== *)

(** The update of [setPermission] goes through only for a permission
    whose service stands for a name and which marshals, on an item with a
    services map; it then writes that one entry. *)
Lemma update_set_params_inv (table k : string) (permission : Obj) (t t' : Table)
    (d : option Item) :
  update (set_params table k permission) t = Some (d, t') ->
  exists (s : string) (pm m : Item),
    name_of (obj_get "service" permission) = Some s
    /\ marshal_obj permission = Some pm
    /\ base_item t k !! "_services" = Some (AM m)
    /\ t' = <[k := <["_services" := AM (<[s := AM pm]> m)]> (base_item t k)]> t.
Proof.
  unfold update, set_params.
  cbn [upd_Key upd_UpdateExpression upd_ExpressionAttributeNames
       upd_ExpressionAttributeValues upd_ReturnValues default from_option
       Datatypes.id].
  rewrite key_of_string, parse_set_permission.
  rewrite marshal_obj_cons, marshal_obj_nil, marshal_VObj.
  destruct (marshal_obj permission) as [pm|]; [|discriminate].
  destruct (refused k t); [discriminate|].
  cbn [map concat raw_path raw_values path_refs omap app].
  replace (names_ok _ _) with true by reflexivity.
  replace (values_ok _ _ _) with true by reflexivity.
  cbn [negb andb resolve_action resolve_path resolve_elem map all_some default
       from_option Datatypes.id obj_get String.eqb Ascii.eqb Bool.eqb name_of].
  destruct (name_of (obj_get "service" permission)) as [s|]; [|discriminate].
  rewrite lookup_insert_eq.
  cbn [all_some forallb map action_path touches_key no_overlap negb andb].
  replace (String.eqb "_services" key_name) with false by reflexivity.
  cbn [negb andb apply_actions apply_action set_path].
  fold (base_item t k).
  destruct (base_item t k !! "_services") as [[| | | | |m]|] eqn:Hm;
    try discriminate.
  intros [= <- <-]. by exists s, pm, m.
Qed.

Lemma update_remove_params_inv (table k service : string) (t t' : Table)
    (d : option Item) :
  update (remove_params table k service) t = Some (d, t') ->
  exists m : Item,
    base_item t k !! "_services" = Some (AM m)
    /\ t' = <[k := <["_services" := AM (delete service m)]> (base_item t k)]> t.
Proof.
  unfold update, remove_params.
  cbn [upd_Key upd_UpdateExpression upd_ExpressionAttributeNames
       upd_ExpressionAttributeValues upd_ReturnValues default from_option
       Datatypes.id].
  rewrite key_of_string, parse_remove_permission, marshal_obj_nil.
  destruct (refused k t); [discriminate|].
  cbn [map concat raw_path raw_values path_refs omap app].
  replace (names_ok _ _) with true by reflexivity.
  replace (values_ok _ _ _) with true by reflexivity.
  cbn [negb andb resolve_action resolve_path resolve_elem map all_some default
       from_option Datatypes.id obj_get String.eqb Ascii.eqb Bool.eqb name_of].
  cbn [all_some forallb map action_path touches_key no_overlap negb andb].
  replace (String.eqb "_services" key_name) with false by reflexivity.
  cbn [negb andb apply_actions apply_action remove_path].
  fold (base_item t k).
  destruct (base_item t k !! "_services") as [[| | | | |m]|] eqn:Hm;
    try discriminate.
  intros [= <- <-]. by exists m.
Qed.

(** When the update does not go through, the operation stops there. *)
Lemma setPermission_update_fails (table id : string) (permission : Obj)
    (item : Item) (w : World) :
  tbl w !! toLowerCase id = Some item ->
  update (set_params table (toLowerCase id) permission) (tbl w) = None ->
  fst (setPermission table id permission w) = Rejected ValidationException
  /\ tbl (snd (setPermission table id permission w)) = tbl w.
Proof.
  intros Hitem Hset. unfold setPermission, bind.
  rewrite findPerson_string, Hitem by accept_key. unfold client_update.
  change (tbl (sent _ w)) with (tbl w). rewrite Hset.
  split; reflexivity.
Qed.

Lemma removePermission_update_fails (table id service : string)
    (item : Item) (w : World) :
  tbl w !! toLowerCase id = Some item ->
  update (remove_params table (toLowerCase id) service) (tbl w) = None ->
  fst (removePermission table id service w) = Rejected ValidationException
  /\ tbl (snd (removePermission table id service w)) = tbl w.
Proof.
  intros Hitem Hrem. unfold removePermission, bind.
  rewrite findPerson_string, Hitem by accept_key. unfold client_update.
  change (tbl (sent _ w)) with (tbl w). rewrite Hrem.
  split; reflexivity.
Qed.

Lemma update_set_params_none (table k : string) (permission : Obj)
    (item : Item) (t : Table) :
  t !! k = Some item ->
  name_of (obj_get "service" permission) = None
  \/ (forall m, item !! "_services" <> Some (AM m)) ->
  update (set_params table k permission) t = None.
Proof.
  intros Hitem Hbad. destruct (update _ _) as [[d t']|] eqn:Hu; [|done].
  apply update_set_params_inv in Hu as (s & pm & m & Hs & _ & Hm & _).
  unfold base_item in Hm. rewrite Hitem in Hm.
  destruct Hbad as [Hbad|Hbad]; [congruence | by destruct (Hbad m)].
Qed.

Lemma update_remove_params_none (table k service : string) (item : Item)
    (t : Table) :
  t !! k = Some item ->
  (forall m, item !! "_services" <> Some (AM m)) ->
  update (remove_params table k service) t = None.
Proof.
  intros Hitem Hbad. destruct (update _ _) as [[d t']|] eqn:Hu; [|done].
  apply update_remove_params_inv in Hu as (m & Hm & _).
  unfold base_item in Hm. rewrite Hitem in Hm. by destruct (Hbad m).
Qed.

(** A service that is not a string but truthy is sent as its
    [toString()]: [setPermission] with [service: 7] writes the entry
    "7". *)
Lemma setPermission_number_service :
  exists item m,
    fst (setPermission edu_people "abc123"
           [("service", VNum 7); ("roles", VArr [])] abc_world)
    = Resolved (Some item)
    /\ has_services item m
    /\ m !! "7" = Some (AM {[ "service" := AN 7; "roles" := AL [] ]}).
Proof.
  eexists _, _. split; [|split].
  - unfold setPermission, bind.
    rewrite findPerson_string by accept_key.
    rewrite abc_world_tbl, lookup_singleton_eq. unfold client_update.
    change (tbl (sent _ abc_world)) with (tbl abc_world).
    erewrite (update_set_params edu_people "abc123" "7" _ _ ∅ abc_item);
      [| by rewrite abc_world_tbl, lookup_singleton_eq | reflexivity
       | reflexivity | reflexivity].
    rewrite findPerson_string by accept_key. cbn [tbl fst].
    rewrite lookup_insert_eq. reflexivity.
  - apply lookup_insert_eq.
  - rewrite lookup_insert_eq. reflexivity.
Qed.

(** X3: for a stored person (the id a UCInetID), [setPermission] with a
    permission object that has no [service] is rejected by the service
    (the placeholder [#serviceName] has no name to stand for), and the
    table stays as it was; so are [setPermission] and [removePermission]
    on a record that has no services map. *)
Theorem permission_update_rejected (table id service : string)
    (permission : Obj) (item : Item) (w : World) :
  netid id ->
  tbl w !! toLowerCase id = Some item ->
  obj_get "service" permission = VUndef
  \/ (forall m, item !! "_services" <> Some (AM m)) ->
  fst (setPermission table id permission w) = Rejected ValidationException
  /\ tbl (snd (setPermission table id permission w)) = tbl w
  /\ ((forall m, item !! "_services" <> Some (AM m)) ->
      fst (removePermission table id service w) = Rejected ValidationException
      /\ tbl (snd (removePermission table id service w)) = tbl w).
Proof.
  intros _ Hitem Hbad.
  destruct (setPermission_update_fails table id permission item w Hitem)
    as [Hout Htbl].
  { eapply update_set_params_none; [exact Hitem|].
    destruct Hbad as [->|Hbad]; [by left | by right]. }
  split; [exact Hout|]. split; [exact Htbl|].
  intros Hnone. apply (removePermission_update_fails table id service item w Hitem).
  by eapply update_remove_params_none.
Qed.

Lemma permission_update_rejected_witness :
  fst (setPermission edu_people "ABC123" [("roles", VArr [VStr "admin"])]
         abc_world)
  = Rejected ValidationException.
Proof.
  destruct (permission_update_rejected edu_people "ABC123" "svc1"
              [("roles", VArr [VStr "admin"])] abc_item abc_world)
    as (Hset & _).
  - split; reflexivity.
  - rewrite abc_world_tbl. reflexivity.
  - left. reflexivity.
  - exact Hset.
Defined.

(* ===================================================================== *)
(** ** Operations one after the other *)
(* ===================================================================== *)

Lemma created_item_services (k : string) (person : Obj) :
  has_services (created_item k person) ∅.
Proof. unfold has_services, created_item. through_fields. apply lookup_insert_eq. Qed.

(** X4: [updatePerson] does not ask whether the person exists. For an id
    under which nothing is stored it creates a record that holds the id as
    spelled and the given fields but no services map, and on that record
    (when the id is a lower-case ASCII one, so that [setPermission] reaches
    it) a following [setPermission] is rejected. *)
Theorem updatePerson_creates_bare_record (table id : string)
    (person permission : Obj) (w : World) :
  updatable_person person id ->
  tbl w !! id = None ->
  exists (item : Item) (w1 : World),
    updatePerson table person w = (Resolved (Some item), w1)
    /\ tbl w1 !! id = Some item
    /\ item !! "ucinetid" = Some (AS id)
    /\ item !! "_services" = None
    /\ (is_ascii id = true ->
        toLowerCase id = id ->
        fst (setPermission table id permission w1) = Rejected ValidationException
        /\ tbl (snd (setPermission table id permission w1)) = tbl w1).
Proof.
  intros Hp Hnone. eexists _, _.
  split; [exact (updatePerson_run table id person w Hp)|]. cbn [tbl].
  destruct Hp as (_ & _ & _ & _ & _ & Hstor).
  assert (forall f, f ∈ not_updated ->
            set_fields person (updatable person) (base_item (tbl w) id) !! f
            = ({[ key_name := AS id ]} : Item) !! f) as Hkeep.
  { intros f Hf. rewrite set_fields_lookup by done.
    rewrite bool_decide_eq_false_2 by (by intros [_ ?]%updatable_spec).
    unfold base_item. by rewrite Hnone. }
  split; [apply lookup_insert_eq|].
  split; [rewrite Hkeep by set_solver; apply lookup_singleton_eq|].
  split; [rewrite Hkeep by set_solver; by apply lookup_singleton_ne|].
  intros _ Hlow.
  eapply setPermission_update_fails; cbn [tbl]; rewrite Hlow.
  - apply lookup_insert_eq.
  - eapply update_set_params_none; [apply lookup_insert_eq|].
    right. intros m. rewrite Hkeep by set_solver.
    by rewrite lookup_singleton_ne.
Qed.

Lemma updatePerson_creates_bare_record_witness :
  exists (item : Item) (w1 : World),
    updatePerson edu_people
      [("ucinetid", VStr "new1"); ("lastName", VStr "King")] abc_world
    = (Resolved (Some item), w1)
    /\ item !! "_services" = None
    /\ fst (setPermission edu_people "new1" svc1_permission w1)
       = Rejected ValidationException.
Proof.
  destruct (updatePerson_creates_bare_record edu_people "new1"
              [("ucinetid", VStr "new1"); ("lastName", VStr "King")]
              svc1_permission abc_world)
    as (item & w1 & Hrun & _ & _ & Hnone & Hset).
  - unfold updatable_person, storable_fields.
    split; [reflexivity|]. split; [reflexivity|]. split; [discriminate|].
    split; [compute_done|]. split; repeat constructor; eauto; compute_done.
  - rewrite abc_world_tbl. reflexivity.
  - exists item, w1. split; [exact Hrun|]. split; [exact Hnone|].
    apply Hset; reflexivity.
Defined.

(** X5: [createPerson] does not ask either. Creating a person (with a
    UCInetID: ASCII, not empty, at most 2048 bytes) again, after a
    permission was set, puts the fresh record in place of the stored one:
    the permission is gone and the table is what it was after the first
    creation. *)
Theorem createPerson_again_resets (table id s : string) (person permission : Obj)
    (pm : Item) (w : World) :
  obj_get "ucinetid" person = VStr id ->
  netid id ->
  scalar_fields person ->
  obj_get "service" permission = VStr s ->
  s <> "" ->
  marshal_obj permission = Some pm ->
  let w1 := snd (createPerson table person w) in
  let w2 := snd (setPermission table id permission w1) in
  exists (granted fresh : Item),
    tbl w2 !! toLowerCase id = Some granted
    /\ holds_service s granted = true
    /\ fst (createPerson table person w2) = Resolved (Some fresh)
    /\ holds_service s fresh = false
    /\ has_services fresh ∅
    /\ tbl (snd (createPerson table person w2)) = tbl w1.
Proof.
  intros Hid [Hne _] Hscalar Hs _ Hpm w1 w2. subst w1 w2.
  rewrite (createPerson_run table id person w Hid Hne Hscalar). cbn [snd].
  set (k := toLowerCase id). set (c := created_item k person).
  erewrite (setPermission_run table id s permission pm ∅ c);
    [| cbn [tbl]; apply lookup_insert_eq | apply created_item_services
     | exact Hs | exact Hpm].
  cbn [snd tbl]. fold k.
  rewrite (createPerson_run table id person _ Hid Hne Hscalar). cbn [fst snd tbl].
  fold k c. eexists _, c.
  split; [apply lookup_insert_eq|].
  split.
  { unfold holds_service. rewrite lookup_insert_eq, lookup_insert_eq.
    by apply bool_decide_eq_true_2. }
  split; [reflexivity|].
  split.
  { unfold holds_service, c. rewrite (created_item_services k person).
    rewrite lookup_empty. apply bool_decide_eq_false_2. by intros [? ?]. }
  split; [apply created_item_services|].
  by rewrite !insert_insert_eq.
Qed.

Lemma createPerson_again_resets_witness :
  exists fresh : Item,
    fst (createPerson edu_people abc_person
           (snd (setPermission edu_people "abc123" svc1_permission abc_world)))
    = Resolved (Some fresh)
    /\ holds_service "svc1" fresh = false.
Proof.
  destruct (createPerson_again_resets edu_people "abc123" "svc1" abc_person
              svc1_permission
              {[ "service" := AS "svc1"; "roles" := AL [AS "admin"];
                 "settings" := AM {[ "a" := AN 1 ]} ]}
              empty_world)
    as (granted & fresh & _ & _ & Hrun & Hgone & _).
  - reflexivity.
  - split; reflexivity.
  - unfold scalar_fields. repeat constructor.
  - reflexivity.
  - discriminate.
  - vm_compute. reflexivity.
  - exists fresh. split; [exact Hrun | exact Hgone].
Defined.

(** X6: for a stored person, [removePermission] undoes [setPermission]:
    after both the services map is the original one without the key, and
    when the person held no permission for that service before, the record
    and the whole table are exactly what they were. *)
Theorem set_then_remove (table id s : string) (permission : Obj)
    (pm item m : Item) (w : World) :
  tbl w !! toLowerCase id = Some item ->
  has_services item m ->
  obj_get "service" permission = VStr s ->
  marshal_obj permission = Some pm ->
  let w1 := snd (setPermission table id permission w) in
  exists (w2 : World),
    removePermission table id s w1
    = (Resolved (Some (<["_services" := AM (delete s m)]> item)), w2)
    /\ (m !! s = None ->
        fst (removePermission table id s w1) = Resolved (Some item)
        /\ tbl w2 = tbl w).
Proof.
  intros Hitem Hm Hs Hpm w1. subst w1.
  rewrite (setPermission_run table id s permission pm m item w Hitem Hm Hs Hpm).
  cbn [snd]. eexists. split.
  - erewrite removePermission_run;
      [| cbn [tbl]; apply lookup_insert_eq
       | unfold has_services; apply lookup_insert_eq].
    cbv zeta. by rewrite delete_insert_eq, insert_insert_eq.
  - intros Hnone. cbn [tbl].
    erewrite removePermission_run;
      [| cbn [tbl]; apply lookup_insert_eq
       | unfold has_services; apply lookup_insert_eq].
    cbn [fst tbl].
    rewrite delete_insert_eq, !insert_insert_eq, (delete_id _ _ Hnone).
    rewrite (insert_id item "_services" (AM m)) by exact Hm.
    split; [reflexivity | by apply insert_id].
Qed.

Lemma set_then_remove_witness :
  fst (removePermission edu_people "abc123" "svc1"
         (snd (setPermission edu_people "abc123" svc1_permission abc_world)))
  = Resolved (Some abc_item).
Proof.
  destruct (set_then_remove edu_people "abc123" "svc1" svc1_permission
              {[ "service" := AS "svc1"; "roles" := AL [AS "admin"];
                 "settings" := AM {[ "a" := AN 1 ]} ]}
              abc_item ∅ abc_world) as (w2 & _ & Hback).
  - rewrite abc_world_tbl. reflexivity.
  - reflexivity.
  - reflexivity.
  - vm_compute. reflexivity.
  - apply Hback. reflexivity.
Defined.

(** X7: permissions are written whole and per service. For a stored
    person (the id a UCInetID) and two permissions the service can store,
    with service names that are not empty: a second [setPermission] for
    the same service leaves exactly what it alone would have written
    (nothing of the first permission survives), and two [setPermission]
    calls for different services give the same table in either order. *)
Theorem setPermission_twice (table id s1 s2 : string) (p1 p2 : Obj)
    (pm1 pm2 item m : Item) (w : World) :
  netid id ->
  tbl w !! toLowerCase id = Some item ->
  has_services item m ->
  obj_get "service" p1 = VStr s1 -> s1 <> "" -> marshal_obj p1 = Some pm1 ->
  obj_get "service" p2 = VStr s2 -> s2 <> "" -> marshal_obj p2 = Some pm2 ->
  let then_ (p q : Obj) :=
    setPermission table id q (snd (setPermission table id p w)) in
  (s1 = s2 ->
   fst (then_ p1 p2) = fst (setPermission table id p2 w)
   /\ tbl (snd (then_ p1 p2)) = tbl (snd (setPermission table id p2 w)))
  /\ (s1 <> s2 ->
      fst (then_ p1 p2) = fst (then_ p2 p1)
      /\ tbl (snd (then_ p1 p2)) = tbl (snd (then_ p2 p1))).
Proof.
  intros _ Hitem Hm Hs1 _ Hpm1 Hs2 _ Hpm2 then_. subst then_. cbv beta.
  rewrite (setPermission_run table id s1 p1 pm1 m item w Hitem Hm Hs1 Hpm1).
  rewrite (setPermission_run table id s2 p2 pm2 m item w Hitem Hm Hs2 Hpm2).
  cbn [snd].
  erewrite (setPermission_run table id s2 p2 pm2);
    [| cbn [tbl]; apply lookup_insert_eq
     | unfold has_services; apply lookup_insert_eq | exact Hs2 | exact Hpm2].
  erewrite (setPermission_run table id s1 p1 pm1);
    [| cbn [tbl]; apply lookup_insert_eq
     | unfold has_services; apply lookup_insert_eq | exact Hs1 | exact Hpm1].
  cbn [fst snd tbl]. rewrite !insert_insert_eq. split.
  - intros <-. by rewrite !insert_insert_eq.
  - intros Hne. by rewrite (insert_insert_ne m s1 s2).
Qed.

Lemma setPermission_twice_witness :
  tbl (snd (setPermission edu_people "abc123" svc2_permission
              (snd (setPermission edu_people "abc123" svc1_permission abc_world))))
  = tbl (snd (setPermission edu_people "abc123" svc1_permission
                (snd (setPermission edu_people "abc123" svc2_permission abc_world)))).
Proof.
  destruct (setPermission_twice edu_people "abc123" "svc1" "svc2"
              svc1_permission svc2_permission
              {[ "service" := AS "svc1"; "roles" := AL [AS "admin"];
                 "settings" := AM {[ "a" := AN 1 ]} ]}
              {[ "service" := AS "svc2"; "roles" := AL []; "settings" := ANull ]}
              abc_item ∅ abc_world) as [_ Hswap].
  - split; reflexivity.
  - rewrite abc_world_tbl. reflexivity.
  - reflexivity.
  - reflexivity.
  - discriminate.
  - vm_compute. reflexivity.
  - reflexivity.
  - discriminate.
  - vm_compute. reflexivity.
  - apply Hswap. discriminate.
Defined.

(* ===================================================================== *)
(** ** Scans with options *)
(* ===================================================================== *)

Section LimitedScan.

Variable table : string.
Variable page_cap : option string -> nat.
Variable fe : option string.
Variable nm : option Obj.
Variable cond : option (bool * list string).
Variable lim : option nat.
Hypothesis Hcond : resolve_condition nm fe = Some cond.
Hypothesis Hlim : lim <> Some 0.

Lemma page_size_positive (c : option Obj) : 0 < page_size page_cap lim c.
Proof. unfold page_size. destruct lim as [[|l]|]; [done | lia | lia]. Qed.

Lemma scan_limited_page (t : Table) (c : option Obj)
    (rest : list (string * Item)) :
  cursor_at t c rest ->
  let n := page_size page_cap lim c in
  scan page_cap (limited_params table fe nm lim c) t
  = Some {| Items := List.filter (eval_condition cond) (map snd (take n rest));
            LastEvaluatedKey :=
              if (length rest <=? n)%nat && negb (at_limit lim rest) then None
              else match last (take n rest) with
                   | Some (k, _) => Some (key_obj k)
                   | None => None
                   end |}.
Proof.
  intros Hc n. unfold scan, limited_params, at_limit.
  cbn [scan_ExpressionAttributeNames scan_FilterExpression
       scan_ExclusiveStartKey scan_Limit].
  rewrite Hcond, (bool_decide_eq_false_2 _ Hlim).
  subst n. unfold page_size.
  destruct c as [o|]; cbn [cursor_at cursor_key] in *.
  - destruct Hc as (k & -> & Hrest). rewrite key_of_key_obj, Hrest.
    by destruct lim.
  - rewrite Hc. by destruct lim.
Qed.

(** The loop of [scanPeople] under a [Limit]: the pages get shorter (and
    an empty one may come last, when the one before stopped at the limit
    with nothing left behind it), the result is the same. *)
Lemma onScan_limited (fuel : nat) :
  forall (c : option Obj) (pre rest : list (string * Item))
         (out : list Item) (w : World),
    map_to_list (tbl w) = pre ++ rest ->
    cursor_at (tbl w) c rest ->
    length rest < fuel ->
    exists w',
      onScan page_cap fuel (limited_params table fe nm lim c) out w
      = (Resolved (out ++ List.filter (eval_condition cond) (map snd rest)), w')
      /\ tbl w' = tbl w.
Proof.
  induction fuel as [|fuel IH]; intros c pre rest out w Hl Hc Hlen; [lia|].
  cbn [onScan]. unfold bind at 1. unfold client_scan.
  rewrite (scan_limited_page _ _ _ Hc). cbn [Items LastEvaluatedKey].
  pose proof (page_size_positive c) as Hpos.
  set (n := page_size page_cap lim c) in *.
  destruct ((length rest <=? n)%nat && negb (at_limit lim rest)) eqn:Hend.
  - apply andb_true_iff in Hend as [Hle%Nat.leb_le _].
    eexists. split; [unfold ret; rewrite take_ge by lia; reflexivity|].
    reflexivity.
  - assert (0 < length rest) as Hsome.
    { destruct rest; [|cbn [length]; lia]. exfalso.
      cbn [length] in Hend. unfold at_limit in Hend.
      destruct lim as [[|l]|]; [by destruct Hlim | discriminate | discriminate]. }
    destruct (last (take n rest)) as [[k v]|] eqn:Hlast.
    2:{ apply last_None in Hlast. apply (f_equal length) in Hlast.
        rewrite length_take in Hlast. cbn [length] in Hlast. lia. }
    apply last_Some in Hlast as [ini Hini].
    change (continue_from (key_obj k) (limited_params table fe nm lim c))
      with (limited_params table fe nm lim (Some (key_obj k))).
    destruct (IH (Some (key_obj k)) (pre ++ take n rest) (drop n rest)
                (out ++ List.filter (eval_condition cond) (map snd (take n rest)))
                (sent (RScan (limited_params table fe nm lim c)) w))
      as (w' & Hrun & Htbl).
    + cbn [sent tbl]. by rewrite Hl, <- app_assoc, take_drop.
    + cbn [sent tbl cursor_at]. exists k. split; [done|].
      apply (after_split _ (pre ++ ini) _ k v).
      * apply NoDup_fst_map_to_list.
      * rewrite Hl, <- (take_drop n rest) at 1.
        by rewrite Hini, <- !app_assoc.
    + rewrite length_drop. lia.
    + exists w'. split; [|exact Htbl].
      rewrite Hrun.
      rewrite <- !app_assoc, <- List.filter_app, <- map_app, take_drop.
      reflexivity.
Qed.

End LimitedScan.

(** X8: a [Limit] in [paramOptions] does not limit what [scanPeople]
    returns. The loop follows the cursor all the same, so for every limit
    of at least one, and whatever the capacity of the pages, the result is
    the full list of selected persons, the one the call without options
    gives. *)
Theorem scanPeople_ignores_limit (table : string)
    (page_cap : option string -> nat) (fuel limit : nat) (service : string)
    (w : World) :
  0 < limit ->
  size (tbl w) < fuel ->
  fst (scanPeople table page_cap fuel service (limit_option limit) w)
  = Resolved (List.filter (selected service) (people (tbl w)))
  /\ fst (scanPeople table page_cap fuel service (limit_option limit) w)
     = fst (scanPeople table page_cap fuel service no_options w)
  /\ tbl (snd (scanPeople table page_cap fuel service (limit_option limit) w))
     = tbl w.
Proof.
  intros Hlimit Hfuel.
  destruct (scanPeople_result table page_cap fuel service w Hfuel)
    as (reqs & Hplain & _).
  unfold scanPeople at 1 2 4.
  change (scan_params table service (limit_option limit))
    with (limited_params table (fst (filter_of service))
            (snd (filter_of service)) (Some limit) None).
  destruct (onScan_limited table page_cap _ _ _ (Some limit)
              (resolve_filter_of service) ltac:(intros [= ->]; lia) fuel
              None [] (map_to_list (tbl w)) [] w) as (w' & Hrun & Htbl).
  - reflexivity.
  - reflexivity.
  - by rewrite length_map_to_list.
  - rewrite Hrun, Hplain. cbn [fst snd app].
    assert (List.filter
              (eval_condition
                 (if test_all service then None
                  else Some (true, ["_services"; service])))
              (map snd (map_to_list (tbl w)))
            = List.filter (selected service) (people (tbl w))) as ->.
    { unfold people, selected. apply List.filter_ext. intros item.
      destruct (test_all service); [reflexivity | apply eval_has_service]. }
    done.
Qed.

Lemma scanPeople_ignores_limit_witness :
  fst (scanPeople edu_people one_per_page 3 "all" (limit_option 1) two_people)
  = fst (scanPeople edu_people one_per_page 3 "all" no_options two_people).
Proof.
  destruct (scanPeople_ignores_limit edu_people one_per_page 3 1 "all" two_people)
    as (_ & Hsame & _).
  - lia.
  - vm_compute. lia.
  - exact Hsame.
Defined.

(** A [Limit] of zero is refused by the service: the first request fails
    and the list is rejected. *)
Lemma scanPeople_limit_zero (table : string) (page_cap : option string -> nat)
    (fuel : nat) (service : string) (w : World) :
  fst (scanPeople table page_cap (S fuel) service (limit_option 0) w)
  = Rejected ValidationException.
Proof.
  unfold scanPeople. cbn [onScan]. unfold bind, client_scan, scan.
  cbn [scan_params limit_option opt_FilterExpression opt_ExpressionAttributeNames
       opt_ExclusiveStartKey opt_Limit spread scan_FilterExpression
       scan_ExpressionAttributeNames scan_ExclusiveStartKey scan_Limit].
  rewrite resolve_filter_of. reflexivity.
Qed.

(* ===================================================================== *)
(** ** Reading *)
(* ===================================================================== *)

Lemma onScan_only_scans (page_cap : option string -> nat) (fuel : nat) :
  forall (params : ScanInput) (out : list Item) (w : World),
    exists reqs,
      snd (onScan page_cap fuel params out w)
      = {| tbl := tbl w; log := log w ++ map RScan reqs |}.
Proof.
  induction fuel as [|fuel IH]; intros params out w.
  - exists []. cbn [onScan snd map]. rewrite app_nil_r. by destruct w.
  - cbn [onScan]. unfold bind at 1. unfold client_scan.
    destruct (scan page_cap params (tbl w)) as [data|].
    + destruct (LastEvaluatedKey data) as [key|].
      * destruct (IH (continue_from key params) (out ++ Items data)
                    (sent (RScan params) w)) as (reqs & ->).
        exists (params :: reqs). unfold sent. cbn [tbl log map].
        by rewrite <- app_assoc.
      * exists [params]. reflexivity.
    + exists [params]. reflexivity.
Qed.

Lemma marshal_string_inv (v : Val) (s : string) :
  marshal v = WOk (AS s) -> v = VStr s.
Proof.
  destruct v as [| | |n|s'|l|o]; try discriminate.
  - cbn [marshal]. by destruct (number_ok n).
  - by intros [= ->].
  - cbn [marshal]. by destruct ((fix elems (l : list Val) := _) l).
  - rewrite marshal_VObj. by destruct (marshal_obj o).
Qed.

Lemma key_of_inv (v : Val) (k : string) :
  key_of [("ucinetid", v)] = Some k -> v = VStr k.
Proof.
  unfold key_of. rewrite marshal_obj_cons, marshal_obj_nil.
  destruct (marshal v) as [| |a] eqn:Hv;
    [rewrite lookup_empty; discriminate | discriminate |].
  unfold key_name. rewrite lookup_insert_eq.
  destruct a as [| | |s| |];
    [discriminate | discriminate | discriminate | | discriminate | discriminate].
  apply marshal_string_inv in Hv as ->.
  rewrite insert_empty, decide_True by (by rewrite map_size_singleton).
  by intros [= ->].
Qed.

(** X9: the two reading operations never write, whatever they are given
    and however they end: [findPerson] sends one get, [scanPeople] sends
    scans and nothing else, and the table is untouched. For a string the
    service takes as a key value (not empty, at most 2048 bytes),
    [findPerson] resolves, with the record stored under exactly that
    string or with [undefined] when there is none (a miss is not an
    error); for any other string and for any value that is not a string
    it is rejected. *)
Theorem reading_never_writes (table : string) (page_cap : option string -> nat)
    (fuel : nat) (service : string) (paramOptions : ScanOptions)
    (ucinetid : Val) (w : World) :
  (exists reqs,
     snd (scanPeople table page_cap fuel service paramOptions w)
     = {| tbl := tbl w; log := log w ++ map RScan reqs |})
  /\ snd (findPerson table ucinetid w)
     = {| tbl := tbl w; log := log w ++ [RGet (find_params table ucinetid)] |}
  /\ (forall k, ucinetid = VStr k -> key_string k = true ->
                fst (findPerson table ucinetid w) = Resolved (tbl w !! k))
  /\ (forall k, ucinetid = VStr k -> key_string k = false ->
                tbl w !! k = None ->
                fst (findPerson table ucinetid w) = Rejected ValidationException)
  /\ ((forall k, ucinetid <> VStr k) ->
      fst (findPerson table ucinetid w) = Rejected ValidationException).
Proof.
  split; [apply onScan_only_scans|].
  assert (snd (findPerson table ucinetid w)
          = {| tbl := tbl w; log := log w ++ [RGet (find_params table ucinetid)] |})
    as Hsnd by (unfold findPerson, client_get; by destruct (get _ _)).
  split; [exact Hsnd|].
  split; [|split].
  - intros k -> Hk. by rewrite findPerson_string by accept_key.
  - intros k -> Hk Hnone. by rewrite findPerson_refused.
  - intros Hno. unfold findPerson, client_get, get, find_params. cbn [get_Key].
    destruct (key_of [("ucinetid", ucinetid)]) as [k|] eqn:Hk; [|reflexivity].
    apply key_of_inv in Hk. by destruct (Hno k).
Qed.

Lemma reading_never_writes_witness :
  fst (findPerson edu_people (VStr "abc123") abc_world) = Resolved (Some abc_item)
  /\ fst (findPerson edu_people (VNum 7) abc_world) = Rejected ValidationException.
Proof.
  destruct (reading_never_writes edu_people one_per_page 1 "all" no_options
              (VStr "abc123") abc_world) as (_ & _ & Hfound & _).
  destruct (reading_never_writes edu_people one_per_page 1 "all" no_options
              (VNum 7) abc_world) as (_ & _ & _ & _ & Hrejected).
  split.
  - rewrite (Hfound "abc123" eq_refl); [|reflexivity].
    by rewrite abc_world_tbl, lookup_singleton_eq.
  - apply Hrejected. intros k. discriminate.
Defined.

(* ===================================================================== *)
(** ** What an update can reach *)
(* ===================================================================== *)

Lemma all_some_Forall2 {A} (l : list (option A)) (r : list A) :
  all_some l = Some r -> Forall2 (fun o x => o = Some x) l r.
Proof.
  revert r. induction l as [|[x|] l IH]; intros r; cbn [all_some].
  - intros [= <-]. constructor.
  - destruct (all_some l) as [r'|]; [|discriminate].
    intros [= <-]. constructor; [reflexivity | by apply IH].
  - discriminate.
Qed.

(** Without [ExpressionAttributeNames] a path starts with a letter. *)
Lemma resolve_path_plain (p : list pelem) (q : list string) :
  resolve_path None p = Some q ->
  match q with
  | f :: _ => starts_alpha f = true
  | [] => True
  end.
Proof.
  unfold resolve_path. intros H%all_some_Forall2.
  destruct p as [|e p]; inversion H as [|o x l r He Hrest]; subst; [done|].
  destruct e as [w|w];
    cbn [resolve_elem default from_option obj_get name_of truthy] in He.
  - destruct w as [|c w]; [discriminate|]. cbn [starts_alpha].
    destruct (is_alpha c) eqn:Hc; [|discriminate].
    destruct (reserved_word (String c w)); [discriminate|].
    by injection He as <-.
  - discriminate.
Qed.

Lemma resolve_action_plain (vals : Item) (a : raw_action) (b : action) :
  resolve_action None vals a = Some b ->
  match action_path b with
  | f :: _ => starts_alpha f = true
  | [] => True
  end.
Proof.
  destruct a as [p v|p]; cbn [resolve_action].
  - destruct (resolve_path None p) as [q|] eqn:Hq; [|discriminate].
    destruct (vals !! v); [|discriminate]. intros [= <-].
    by apply (resolve_path_plain p).
  - destruct (resolve_path None p) as [q|] eqn:Hq; [|discriminate].
    intros [= <-]. by apply (resolve_path_plain p).
Qed.

Lemma set_path_step (k k' : string) (p : list string) (v : Attr) (m : Item) :
  set_path (k :: k' :: p) v m
  = match m !! k with
    | Some (AM mk) =>
        match set_path (k' :: p) v mk with
        | Some mk' => Some (<[k := AM mk']> m)
        | None => None
        end
    | _ => None
    end.
Proof. reflexivity. Qed.

Lemma remove_path_step (k k' : string) (p : list string) (m : Item) :
  remove_path (k :: k' :: p) m
  = match m !! k with
    | Some (AM mk) =>
        match remove_path (k' :: p) mk with
        | Some mk' => Some (<[k := AM mk']> m)
        | None => None
        end
    | _ => None
    end.
Proof. reflexivity. Qed.

(** An action changes nothing outside the attribute its path starts with. *)
Lemma apply_action_frame (a : action) (m m' : Item) (f : string) :
  apply_action a m = Some m' ->
  head (action_path a) <> Some f ->
  m' !! f = m !! f.
Proof.
  destruct a as [p v|p]; cbn [apply_action action_path];
    (destruct p as [|k [|k' p]]; [discriminate | |]).
  - cbn [set_path head]. intros [= <-] Hne.
    rewrite lookup_insert_ne; [done | congruence].
  - rewrite set_path_step. cbn [head].
    destruct (m !! k) as [[| | | | |mk]|]; try discriminate.
    destruct (set_path (k' :: p) v mk); [|discriminate].
    intros [= <-] Hne. rewrite lookup_insert_ne; [done | congruence].
  - cbn [remove_path head]. intros [= <-] Hne.
    rewrite lookup_delete_ne; [done | congruence].
  - rewrite remove_path_step. cbn [head].
    destruct (m !! k) as [[| | | | |mk]|]; try discriminate.
    destruct (remove_path (k' :: p) mk); [|discriminate].
    intros [= <-] Hne. rewrite lookup_insert_ne; [done | congruence].
Qed.

Lemma apply_actions_frame (acts : list action) (m m' : Item) (f : string) :
  apply_actions acts m = Some m' ->
  Forall (fun a => head (action_path a) <> Some f) acts ->
  m' !! f = m !! f.
Proof.
  revert m. induction acts as [|a acts IH]; intros m; cbn [apply_actions].
  - by intros [= <-].
  - destruct (apply_action a m) as [m1|] eqn:Ha; [|discriminate].
    intros Hrest [Hhead Hall]%Forall_cons.
    rewrite (IH m1 Hrest Hall). by apply (apply_action_frame a).
Qed.

(** An update that goes through writes one item, under its key; the key
    attribute of the item is as before, and when the request names no
    placeholders so is every attribute whose name does not start with a
    letter. *)
Lemma update_frame (req : UpdateInput) (t t' : Table) (d : option Item) :
  update req t = Some (d, t') ->
  exists (k : string) (item' : Item),
    key_of (upd_Key req) = Some k
    /\ t' = <[k := item']> t
    /\ item' !! key_name = base_item t k !! key_name
    /\ (upd_ExpressionAttributeNames req = None ->
        forall f, starts_alpha f = false ->
                  item' !! f = base_item t k !! f).
Proof.
  unfold update.
  destruct (key_of (upd_Key req)) as [k|]; [|discriminate].
  destruct (parse_update (upd_UpdateExpression req)) as [raws|]; [|discriminate].
  destruct (marshal_obj _) as [vals|]; [|discriminate].
  destruct (_ && _ && _); [|discriminate].
  destruct (all_some _) as [acts|] eqn:Hacts; [|discriminate].
  destruct (forallb _ acts && _) eqn:Hchk; [|discriminate].
  fold (base_item t k).
  destruct (apply_actions acts (base_item t k)) as [item'|] eqn:Happ;
    [|discriminate].
  intros [= <- <-]. exists k, item'. split; [reflexivity|].
  split; [reflexivity|].
  apply andb_true_iff in Hchk as [Hkey _].
  rewrite forallb_forall in Hkey. split.
  - apply (apply_actions_frame acts _ _ _ Happ). apply Forall_forall.
    intros a Ha. specialize (Hkey a ltac:(by apply list_elem_of_In)).
    apply negb_true_iff in Hkey.
    destruct (action_path a) as [|x p]; [discriminate|].
    cbn [touches_key head] in *. apply String.eqb_neq in Hkey. congruence.
  - intros Hnames f Hf. apply (apply_actions_frame acts _ _ _ Happ).
    rewrite Hnames in Hacts. apply all_some_Forall2 in Hacts.
    apply Forall_forall. intros a Ha.
    apply list_elem_of_lookup in Ha as [i Hi].
    destruct (Forall2_lookup_r _ _ _ _ _ Hacts Hi) as (o & Ho & ->).
    apply list_lookup_fmap_Some in Ho as (raw & Hres & _).
    symmetry in Hres. apply resolve_action_plain in Hres.
    destruct (action_path a) as [|x p]; [discriminate|].
    cbn [head]. intros [= ->]. congruence.
Qed.

(** What [updatePerson] does to the table, for any argument at all. *)
Lemma updatePerson_reach (table : string) (person : Obj) (w : World) :
  tbl (snd (updatePerson table person w)) = tbl w
  \/ exists (k : string) (item' : Item),
       obj_get "ucinetid" person = VStr k
       /\ tbl (snd (updatePerson table person w)) = <[k := item']> (tbl w)
       /\ item' !! "ucinetid" = base_item (tbl w) k !! "ucinetid"
       /\ item' !! "_services" = base_item (tbl w) k !! "_services".
Proof.
  unfold updatePerson, bind, client_update.
  destruct (update (update_params table person) (tbl w)) as [[d t']|] eqn:Hu;
    [|left; reflexivity].
  right. rewrite findPerson_keeps_table. cbn [tbl].
  apply update_frame in Hu as (k & item' & Hk & -> & Hkey & Hrest).
  change (upd_Key (update_params table person))
    with [("ucinetid", obj_get "ucinetid" person)] in Hk.
  apply key_of_inv in Hk. exists k, item'.
  split; [exact Hk|]. split; [reflexivity|]. split; [exact Hkey|].
  apply Hrest; reflexivity.
Qed.

(** X10: whatever properties its argument carries, [updatePerson] writes
    at most the one record under the id as given, and in that record it
    never changes the services map nor the key attribute: permissions are
    out of reach of the general update. *)
Theorem updatePerson_spares_services (table : string) (person : Obj) (w : World) :
  forall k : string,
    tbl (snd (updatePerson table person w)) !! k = tbl w !! k
    \/ (obj_get "ucinetid" person = VStr k
        /\ exists item' : Item,
             tbl (snd (updatePerson table person w)) !! k = Some item'
             /\ item' !! "_services" = base_item (tbl w) k !! "_services"
             /\ item' !! "ucinetid" = base_item (tbl w) k !! "ucinetid").
Proof.
  intros k.
  destruct (updatePerson_reach table person w)
    as [->|(k0 & item' & Hid & -> & Hkey & Hsvc)]; [by left|].
  destruct (decide (k0 = k)) as [<-|Hne].
  - right. split; [exact Hid|]. exists item'.
    split; [apply lookup_insert_eq|]. by split.
  - left. by apply lookup_insert_ne.
Qed.

(* ===================================================================== *)
(** ** The directory stays well formed *)
(* ===================================================================== *)

Lemma directory_ok_insert (t : Table) (k : string) (item m : Item) :
  directory_ok t ->
  item !! "ucinetid" = Some (AS k) ->
  has_services item m ->
  directory_ok (<[k := item]> t).
Proof.
  intros Hok Hkey Hm k' item'. destruct (decide (k = k')) as [<-|Hne].
  - rewrite lookup_insert_eq. intros [= <-]. split; [exact Hkey | by exists m].
  - rewrite lookup_insert_ne by done. apply Hok.
Qed.

Lemma create_params_services (table k : string) (person : Obj) :
  obj_get "_services" (put_Item (create_params table k person)) = VObj [].
Proof.
  unfold create_params. cbn [put_Item].
  destruct (truthy (obj_get "firstName" person)),
           (truthy (obj_get "middleName" person)),
           (truthy (obj_get "email" person)),
           (truthy (obj_get "photo" person)); reflexivity.
Qed.

Lemma createPerson_keeps_directory (table : string) (person : Obj) (w : World) :
  directory_ok (tbl w) ->
  directory_ok (tbl (snd (createPerson table person w))).
Proof.
  intros Hok. unfold createPerson, bind, lower_of, ret, throw, client_put.
  destruct (obj_get "ucinetid" person) as [| | | |id| |]; try exact Hok.
  destruct (put _ (tbl w)) as [t|] eqn:Hput; [|exact Hok].
  rewrite findPerson_keeps_table. cbn [tbl].
  unfold put in Hput.
  destruct (marshal_obj _) as [m|] eqn:Hm; [|discriminate].
  destruct (m !! key_name) as [[| | |k| |]|] eqn:Hk; try discriminate.
  destruct (key_string k); [|discriminate].
  injection Hput as <-.
  apply (directory_ok_insert _ _ _ ∅ Hok Hk).
  apply (marshal_obj_lookup _ _ _ _ Hm).
  by rewrite create_params_services.
Qed.

Lemma setPermission_keeps_directory (table id : string) (permission : Obj)
    (w : World) :
  directory_ok (tbl w) ->
  directory_ok (tbl (snd (setPermission table id permission w))).
Proof.
  intros Hok. unfold setPermission, bind.
  destruct (tbl w !! toLowerCase id) as [item|] eqn:Hitem.
  2:{ rewrite (findPerson_absent _ _ _ Hitem).
      destruct (key_string _); exact Hok. }
  rewrite findPerson_string, Hitem by accept_key.
  unfold client_update.
  destruct (update _ _) as [[d t']|] eqn:Hu; [|exact Hok].
  rewrite findPerson_keeps_table. cbn [tbl].
  change (tbl (sent _ w)) with (tbl w) in Hu.
  apply update_set_params_inv in Hu as (s & pm & m & _ & _ & _ & ->).
  unfold base_item. rewrite Hitem. cbn [default from_option Datatypes.id].
  destruct (Hok _ _ Hitem) as [Hkey _].
  eapply directory_ok_insert; [exact Hok | | apply lookup_insert_eq].
  by rewrite lookup_insert_ne.
Qed.

Lemma removePermission_keeps_directory (table id service : string) (w : World) :
  directory_ok (tbl w) ->
  directory_ok (tbl (snd (removePermission table id service w))).
Proof.
  intros Hok. unfold removePermission, bind.
  destruct (tbl w !! toLowerCase id) as [item|] eqn:Hitem.
  2:{ rewrite (findPerson_absent _ _ _ Hitem).
      destruct (key_string _); exact Hok. }
  rewrite findPerson_string, Hitem by accept_key.
  unfold client_update.
  destruct (update _ _) as [[d t']|] eqn:Hu; [|exact Hok].
  rewrite findPerson_keeps_table. cbn [tbl].
  change (tbl (sent _ w)) with (tbl w) in Hu.
  apply update_remove_params_inv in Hu as (m & _ & ->).
  unfold base_item. rewrite Hitem. cbn [default from_option Datatypes.id].
  destruct (Hok _ _ Hitem) as [Hkey _].
  eapply directory_ok_insert; [exact Hok | | apply lookup_insert_eq].
  by rewrite lookup_insert_ne.
Qed.

Lemma updatePerson_keeps_directory (table : string) (person : Obj) (w : World) :
  directory_ok (tbl w) ->
  (forall id, obj_get "ucinetid" person = VStr id -> is_Some (tbl w !! id)) ->
  directory_ok (tbl (snd (updatePerson table person w))).
Proof.
  intros Hok Hstored.
  destruct (updatePerson_reach table person w)
    as [->|(k & item' & Hid & -> & Hkey & Hsvc)]; [exact Hok|].
  destruct (Hstored k Hid) as [item Hitem].
  unfold base_item in Hkey, Hsvc. rewrite Hitem in Hkey, Hsvc.
  cbn [default from_option Datatypes.id] in Hkey, Hsvc.
  destruct (Hok _ _ Hitem) as [Hk [m Hm]].
  apply (directory_ok_insert _ _ _ m Hok).
  - by rewrite Hkey.
  - unfold has_services. by rewrite Hsvc.
Qed.

(** X11: the directory stays well formed (every record carries the key it
    is stored under and has a services map) under [createPerson],
    [setPermission] and [removePermission] with any arguments and any
    outcome, under [updatePerson] when the person is stored under the id
    as given, and under [upsertPerson] when the id is an ASCII string in
    lower case. *)
Theorem directory_stays_ok (table id service : string) (person permission : Obj)
    (w : World) :
  directory_ok (tbl w) ->
  directory_ok (tbl (snd (createPerson table person w)))
  /\ directory_ok (tbl (snd (setPermission table id permission w)))
  /\ directory_ok (tbl (snd (removePermission table id service w)))
  /\ ((forall k, obj_get "ucinetid" person = VStr k -> is_Some (tbl w !! k)) ->
      directory_ok (tbl (snd (updatePerson table person w))))
  /\ ((forall k, obj_get "ucinetid" person = VStr k ->
                  is_ascii k = true /\ toLowerCase k = k) ->
      directory_ok (tbl (snd (upsertPerson table person w)))).
Proof.
  intros Hok.
  split; [by apply createPerson_keeps_directory|].
  split; [by apply setPermission_keeps_directory|].
  split; [by apply removePermission_keeps_directory|].
  split; [by apply updatePerson_keeps_directory|].
  intros Hlow.
  destruct (obj_get "ucinetid" person) as [| | | |k| |] eqn:Hid;
    try (unfold upsertPerson, bind, lower_of, throw; rewrite Hid; exact Hok).
  destruct (Hlow k eq_refl) as [_ Hk].
  destruct (tbl w !! k) as [item|] eqn:Hitem.
  - rewrite (upsertPerson_string table k person w Hid)
      by (rewrite Hk; accept_key).
    rewrite Hk, Hitem.
    apply updatePerson_keeps_directory; [exact Hok|].
    intros k' Hk'. rewrite Hid in Hk'. injection Hk' as <-.
    cbn [sent tbl]. rewrite Hitem. by eexists.
  - destruct (key_string k) eqn:Hkey.
    + rewrite (upsertPerson_string table k person w Hid)
        by (rewrite Hk; accept_key).
      rewrite Hk, Hitem. by apply createPerson_keeps_directory.
    + unfold upsertPerson, bind. rewrite Hid. cbn [lower_of ret].
      rewrite Hk, (findPerson_refused _ _ _ Hkey Hitem). exact Hok.
Qed.

Lemma directory_stays_ok_witness :
  directory_ok
    (tbl (snd (setPermission edu_people "ABC123" svc1_permission abc_world))).
Proof.
  destruct (directory_stays_ok edu_people "ABC123" "svc1" abc_person
              svc1_permission abc_world) as (_ & Hset & _).
  - rewrite abc_world_tbl. intros k item Hk.
    apply lookup_singleton_Some in Hk as [<- <-].
    split; [reflexivity | exists ∅; reflexivity].
  - exact Hset.
Defined.

(* ===================================================================== *)
(** ** Upserting twice *)
(* ===================================================================== *)

Lemma obj_get_not_own (o : Obj) (f : string) :
  f ∉ getOwnPropertyNames o -> obj_get f o = VUndef.
Proof.
  induction o as [|[k v] o IH]; [reflexivity|].
  cbn [getOwnPropertyNames map fst obj_get].
  intros [Hne Hrest]%not_elem_of_cons.
  destruct (String.eqb_spec k f) as [->|_]; [done | by apply IH].
Qed.

Lemma profile_field_value (person : Obj) (id f : string) :
  profile_person person id ->
  f ∈ profile_fields ->
  obj_get f person = VUndef
  \/ (f ∈ updatable person /\ exists s, obj_get f person = VStr s /\ s <> "").
Proof.
  intros (_ & _ & _ & _ & _ & Hall) Hf.
  destruct (decide (f ∈ updatable person)) as [Hin|Hnin].
  - right. split; [exact Hin|]. rewrite Forall_forall in Hall.
    by destruct (Hall f Hin).
  - left. apply obj_get_not_own. intros Hown. apply Hnin.
    apply updatable_spec. split; [exact Hown|].
    unfold profile_fields, not_updated in *.
    rewrite !elem_of_cons, elem_of_nil in Hf. rewrite !not_elem_of_cons.
    destruct Hf as [->|[->|[->|[->|[->|[]]]]]]; repeat split; discriminate
      || apply not_elem_of_nil.
Qed.

Lemma profile_person_scalar (person : Obj) (id : string) :
  profile_person person id -> scalar_fields person.
Proof.
  intros Hp. unfold scalar_fields. apply Forall_forall. intros f Hf.
  destruct (profile_field_value person id f Hp Hf) as [->|(_ & s & -> & _)];
    reflexivity.
Qed.

Lemma profile_person_updatable (person : Obj) (id : string) :
  profile_person person id -> updatable_person person id.
Proof.
  intros (Hid & [Hkey _] & _ & Hne & Hnd & Hall).
  split; [exact Hid|]. split; [exact Hkey|]. split; [exact Hne|].
  split; [exact Hnd|].
  split; eapply Forall_impl; try exact Hall; cbv beta.
  - by intros n [Hn _].
  - intros n [_ (s & -> & _)]. by eexists.
Qed.

Lemma created_item_profile (k f s : string) (person : Obj) :
  f ∈ profile_fields ->
  obj_get f person = VStr s ->
  s <> "" ->
  created_item k person !! f = Some (AS s).
Proof.
  intros Hf Hs Hne. unfold profile_fields in Hf.
  assert (truthy (VStr s) = true) as Htrue.
  { cbn [truthy]. apply negb_true_iff. by apply String.eqb_neq. }
  rewrite !elem_of_cons, elem_of_nil in Hf. unfold created_item.
  destruct Hf as [->|[->|[->|[->|[->|[]]]]]]; through_fields;
    unfold with_optional; rewrite Hs, ?Htrue, with_field_string;
    apply lookup_insert_eq.
Qed.

Lemma set_fields_again (person : Obj) (names : list string) (item : Item) :
  storable_fields person names ->
  set_fields person names (set_fields person names item)
  = set_fields person names item.
Proof.
  intros Hstor. apply map_eq. intros f.
  rewrite !set_fields_lookup by done. by destruct (bool_decide (f ∈ names)).
Qed.

Lemma set_fields_created (person : Obj) (id : string) :
  profile_person person id ->
  set_fields person (updatable person) (created_item id person)
  = created_item id person.
Proof.
  intros Hp.
  pose proof (profile_person_updatable _ _ Hp) as (_ & _ & _ & _ & _ & Hstor).
  apply map_eq. intros f. rewrite set_fields_lookup by done.
  destruct (decide (f ∈ updatable person)) as [Hin|Hnin].
  - rewrite bool_decide_eq_true_2 by done.
    destruct Hp as (_ & _ & _ & _ & _ & Hall). rewrite Forall_forall in Hall.
    destruct (Hall f Hin) as (Hf & s & Hs & Hne).
    rewrite (created_item_profile id f s person Hf Hs Hne).
    unfold stored. by rewrite Hs.
  - by rewrite bool_decide_eq_false_2.
Qed.

(** X12: [upsertPerson] is idempotent on persons that carry profile fields
    only: for a lower-case id (ASCII, not empty, at most 2048 bytes) and
    one or more of [firstName], [lastName], [middleName], [email],
    [photo], each a non-empty string, the second of two identical upserts
    resolves with the same record as the first and leaves the table as
    the first left it, whether the first created the person or updated
    it. *)
Theorem upsert_twice (table id : string) (person : Obj) (w : World) :
  profile_person person id ->
  let w1 := snd (upsertPerson table person w) in
  exists record : Item,
    fst (upsertPerson table person w) = Resolved (Some record)
    /\ tbl w1 !! id = Some record
    /\ fst (upsertPerson table person w1) = Resolved (Some record)
    /\ tbl (snd (upsertPerson table person w1)) = tbl w1.
Proof.
  intros Hp w1. subst w1.
  pose proof (profile_person_updatable _ _ Hp) as Hup.
  pose proof (profile_person_scalar _ _ Hp) as Hsc.
  pose proof Hup as (_ & _ & _ & _ & _ & Hstor).
  pose proof Hp as (Hid & [Hkey _] & Hlow & _).
  rewrite (upsertPerson_string table id person w Hid)
    by (rewrite Hlow; accept_key).
  rewrite Hlow.
  destruct (tbl w !! id) as [item|] eqn:Hitem.
  - rewrite (updatePerson_run table id person _ Hup). cbn [fst snd tbl sent].
    eexists. split; [reflexivity|]. split; [apply lookup_insert_eq|].
    rewrite (upsertPerson_string table id person _ Hid)
      by (rewrite Hlow; accept_key).
    rewrite Hlow.
    cbn [tbl]. rewrite lookup_insert_eq.
    rewrite (updatePerson_run table id person _ Hup). cbn [fst snd tbl sent].
    unfold base_item. rewrite lookup_insert_eq, Hitem.
    cbn [default from_option Datatypes.id].
    rewrite set_fields_again by done. split; [reflexivity|].
    by rewrite insert_insert_eq.
  - rewrite (createPerson_run table id person _ Hid Hkey Hsc). rewrite Hlow.
    cbn [fst snd tbl sent].
    eexists. split; [reflexivity|]. split; [apply lookup_insert_eq|].
    rewrite (upsertPerson_string table id person _ Hid)
      by (rewrite Hlow; accept_key).
    rewrite Hlow.
    cbn [tbl]. rewrite lookup_insert_eq.
    rewrite (updatePerson_run table id person _ Hup). cbn [fst snd tbl sent].
    unfold base_item. rewrite lookup_insert_eq.
    cbn [default from_option Datatypes.id].
    rewrite (set_fields_created person id Hp).
    split; [reflexivity|]. by rewrite insert_insert_eq.
Qed.

Lemma upsert_twice_witness :
  exists record : Item,
    fst (upsertPerson edu_people abc_person empty_world) = Resolved (Some record)
    /\ fst (upsertPerson edu_people abc_person
              (snd (upsertPerson edu_people abc_person empty_world)))
       = Resolved (Some record).
Proof.
  destruct (upsert_twice edu_people "abc123" abc_person empty_world)
    as (record & Hfirst & _ & Hsecond & _).
  - unfold profile_person.
    split; [reflexivity|]. split; [split; reflexivity|].
    split; [reflexivity|]. split; [discriminate|].
    split; [compute_done|].
    repeat constructor; try compute_done; eexists; (split; [reflexivity|discriminate]).
  - exists record. split; [exact Hfirst | exact Hsecond].
Defined.

(* ===================================================================== *)
(** ** Writing, then listing *)
(* ===================================================================== *)

Lemma listed_iff (table : string) (page_cap : option string -> nat)
    (fuel : nat) (service : string) (w : World) :
  size (tbl w) < fuel ->
  exists l,
    fst (scanPeople table page_cap fuel service no_options w) = Resolved l
    /\ forall item,
         item ∈ l
         <-> (exists k, tbl w !! k = Some item) /\ selected service item = true.
Proof.
  intros Hfuel.
  destruct (scanPeople_result table page_cap fuel service w Hfuel)
    as (reqs & -> & _).
  eexists. split; [reflexivity|]. intros item. unfold people.
  rewrite list_elem_of_In, List.filter_In, <- list_elem_of_In.
  rewrite list_elem_of_fmap. split.
  - intros [([k x] & -> & Hin) Hsel]. split; [|done].
    exists k. by apply elem_of_map_to_list.
  - intros [[k Hk] Hsel]. split; [|done]. exists (k, item).
    split; [reflexivity | by apply elem_of_map_to_list].
Qed.

(** X13: granting and revoking show in the listing. For a stored person
    (the id a UCInetID), a permission the service can store and a service
    name that is not empty and not the sentinel, the record
    [setPermission] resolves with is in [list(service)] right after, and
    the record [removePermission] then resolves with is not, while it
    stays in [list("all")]. *)
Theorem listing_follows_permissions (table : string)
    (page_cap : option string -> nat) (fuel : nat) (id s : string)
    (permission : Obj) (pm item m : Item) (w : World) :
  netid id ->
  tbl w !! toLowerCase id = Some item ->
  has_services item m ->
  obj_get "service" permission = VStr s ->
  s <> "" ->
  marshal_obj permission = Some pm ->
  test_all s = false ->
  size (tbl w) < fuel ->
  let w1 := snd (setPermission table id permission w) in
  let w2 := snd (removePermission table id s w1) in
  exists (granted revoked : Item) (l1 l2 l3 : list Item),
    fst (setPermission table id permission w) = Resolved (Some granted)
    /\ fst (removePermission table id s w1) = Resolved (Some revoked)
    /\ fst (scanPeople table page_cap fuel s no_options w1) = Resolved l1
    /\ granted ∈ l1
    /\ fst (scanPeople table page_cap fuel s no_options w2) = Resolved l2
    /\ (revoked ∉ l2)
    /\ fst (scanPeople table page_cap fuel "all" no_options w2) = Resolved l3
    /\ revoked ∈ l3.
Proof.
  intros _ Hitem Hm Hs _ Hpm Hsent Hfuel w1 w2. subst w1 w2.
  rewrite (setPermission_run table id s permission pm m item w Hitem Hm Hs Hpm).
  cbn [fst snd].
  set (k := toLowerCase id).
  set (granted := <["_services" := AM (<[s := AM pm]> m)]> item).
  erewrite (removePermission_run table id s (<[s := AM pm]> m) granted);
    [| cbn [tbl]; apply lookup_insert_eq
     | unfold has_services, granted; apply lookup_insert_eq].
  cbn [fst snd]. fold k.
  set (revoked := <["_services" := AM (delete s (<[s := AM pm]> m))]> granted).
  assert (forall x y : Item, size (<[k := x]> (<[k := y]> (tbl w))) < fuel
                             /\ size (<[k := y]> (tbl w)) < fuel) as Hsize.
  { intros x y. rewrite insert_insert_eq.
    rewrite !map_size_insert_Some by (unfold k; eauto). lia. }
  destruct (listed_iff table page_cap fuel s
              {| tbl := <[k := granted]> (tbl w); log := [] |})
    as (l1 & Hl1 & Hin1); [apply (Hsize granted granted)|].
  destruct (listed_iff table page_cap fuel s
              {| tbl := <[k := revoked]> (<[k := granted]> (tbl w)); log := [] |})
    as (l2 & Hl2 & Hin2); [apply (Hsize revoked granted)|].
  destruct (listed_iff table page_cap fuel "all"
              {| tbl := <[k := revoked]> (<[k := granted]> (tbl w)); log := [] |})
    as (l3 & Hl3 & Hin3); [apply (Hsize revoked granted)|].
  assert (forall t lg1 lg2 f,
            size t < fuel ->
            fst (scanPeople table page_cap fuel f no_options
                   {| tbl := t; log := lg1 |})
            = fst (scanPeople table page_cap fuel f no_options
                     {| tbl := t; log := lg2 |})) as Hlog.
  { intros t lg1 lg2 f Hlt.
    destruct (scanPeople_result table page_cap fuel f
                {| tbl := t; log := lg1 |} Hlt) as (? & -> & _).
    destruct (scanPeople_result table page_cap fuel f
                {| tbl := t; log := lg2 |} Hlt) as (? & -> & _).
    reflexivity. }
  exists granted, revoked, l1, l2, l3.
  split; [reflexivity|]. split; [reflexivity|].
  split; [erewrite Hlog; [exact Hl1 | apply (Hsize granted granted)]|].
  split.
  { apply Hin1. cbn [tbl]. split.
    - exists k. apply lookup_insert_eq.
    - unfold selected. rewrite Hsent. unfold holds_service, granted.
      rewrite !lookup_insert_eq. by apply bool_decide_eq_true_2. }
  split; [erewrite Hlog; [exact Hl2 | apply (Hsize revoked granted)]|].
  split.
  { intros [_ Hsel]%Hin2. unfold selected in Hsel. rewrite Hsent in Hsel.
    unfold holds_service, revoked in Hsel.
    rewrite lookup_insert_eq, lookup_delete_eq in Hsel.
    apply bool_decide_eq_true_1 in Hsel. by destruct Hsel. }
  split; [erewrite Hlog; [exact Hl3 | apply (Hsize revoked granted)]|].
  apply Hin3. cbn [tbl]. split; [|reflexivity].
  exists k. apply lookup_insert_eq.
Qed.

Lemma listing_follows_permissions_witness :
  exists (granted : Item) (l1 : list Item),
    fst (setPermission edu_people "abc123" svc1_permission abc_world)
    = Resolved (Some granted)
    /\ fst (scanPeople edu_people one_per_page 2 "svc1" no_options
              (snd (setPermission edu_people "abc123" svc1_permission abc_world)))
       = Resolved l1
    /\ granted ∈ l1.
Proof.
  destruct (listing_follows_permissions edu_people one_per_page 2 "abc123"
              "svc1" svc1_permission
              {[ "service" := AS "svc1"; "roles" := AL [AS "admin"];
                 "settings" := AM {[ "a" := AN 1 ]} ]}
              abc_item ∅ abc_world)
    as (granted & revoked & l1 & l2 & l3 & Hset & _ & Hl1 & Hin & _).
  - split; reflexivity.
  - rewrite abc_world_tbl. reflexivity.
  - reflexivity.
  - reflexivity.
  - discriminate.
  - vm_compute. reflexivity.
  - reflexivity.
  - rewrite abc_world_tbl, map_size_singleton. lia.
  - exists granted, l1. split; [exact Hset|]. split; [exact Hl1 | exact Hin].
Defined.

(* ===================================================================== *)
(** ** An upsert in another casing *)
(* ===================================================================== *)

(** X14: [upsertPerson] looks the person up under the lowercased id but
    updates under the id as given. When a person is stored under the
    lowercase id and the argument spells the id (an ASCII string)
    differently, the upsert takes the update branch and, nothing being
    stored under that spelling, writes a second record there, without a
    services map; the stored person is left exactly as it was. *)
Theorem upsert_other_casing (table id : string) (person : Obj) (item : Item)
    (w : World) :
  updatable_person person id ->
  is_ascii id = true ->
  toLowerCase id <> id ->
  tbl w !! toLowerCase id = Some item ->
  tbl w !! id = None ->
  exists (second : Item) (w' : World),
    upsertPerson table person w = (Resolved (Some second), w')
    /\ tbl w' !! id = Some second
    /\ second !! "ucinetid" = Some (AS id)
    /\ second !! "_services" = None
    /\ tbl w' !! toLowerCase id = Some item
    /\ size (tbl w') = S (size (tbl w)).
Proof.
  intros Hup _ Hcase Hitem Hnone.
  pose proof Hup as (Hid & _ & _ & _ & _ & Hstor).
  rewrite (upsertPerson_string table id person w Hid), Hitem by accept_key.
  rewrite (updatePerson_run table id person _ Hup). cbn [tbl sent].
  assert (forall f, f ∈ not_updated ->
            set_fields person (updatable person) (base_item (tbl w) id) !! f
            = ({[ key_name := AS id ]} : Item) !! f) as Hkeep.
  { intros f Hf. rewrite set_fields_lookup by done.
    rewrite bool_decide_eq_false_2 by (by intros [_ ?]%updatable_spec).
    unfold base_item. by rewrite Hnone. }
  eexists _, _. split; [reflexivity|]. cbn [tbl].
  split; [apply lookup_insert_eq|].
  split; [rewrite Hkeep by set_solver; apply lookup_singleton_eq|].
  split; [rewrite Hkeep by set_solver; by apply lookup_singleton_ne|].
  split; [by rewrite lookup_insert_ne|].
  by apply map_size_insert_None.
Qed.

Lemma upsert_other_casing_witness :
  exists (second : Item) (w' : World),
    upsertPerson edu_people
      [("ucinetid", VStr "ABC123"); ("lastName", VStr "King")] abc_world
    = (Resolved (Some second), w')
    /\ second !! "_services" = None
    /\ tbl w' !! "abc123" = Some abc_item.
Proof.
  destruct (upsert_other_casing edu_people "ABC123"
              [("ucinetid", VStr "ABC123"); ("lastName", VStr "King")]
              abc_item abc_world)
    as (second & w' & Hrun & _ & _ & Hbare & Hkept & _).
  - unfold updatable_person, storable_fields.
    split; [reflexivity|]. split; [reflexivity|]. split; [discriminate|].
    split; [compute_done|]. split; repeat constructor; eauto; compute_done.
  - reflexivity.
  - discriminate.
  - rewrite abc_world_tbl. reflexivity.
  - rewrite abc_world_tbl. reflexivity.
  - exists second, w'. split; [exact Hrun|]. split; [exact Hbare | exact Hkept].
Defined.
